(** * akupila/ssm: binding Parameter Store entries onto struct fields

    A shallow embedding of [ssm.go]: the options of [NewParamStore], the
    schema resolver [ParamStore.schema], the conversion [ParamStore.setValue]
    and the binder [ParamStore.Read], followed by the properties of the
    specification that concern them.

    Conventions of the embedding.
    - Go [string]s are [string]s, [int] is 64 bits wide (a 64-bit platform).
    - A [reflect.Type] is a term of [ty]; a [reflect.Value] of the target is
      a term of [val] read together with its type.
    - A [[]int] is a slice header over a backing array kept in a store
      ([Slices]), because [schema] appends to slices that share arrays.
    - A Go [map] is a [gmap]; the order in which [range] visits its keys is
      left to the environment ([GoEnv]).
    - [error] values keep the format of each [fmt.Errorf] as a constructor
      and its arguments as fields.
    - A run-time panic is an outcome of its own. *)

From Stdlib Require Import ZArith Ascii String.
From stdpp Require Import gmap strings list fin_maps.

#[local] Set Warnings "-register-all".

Local Open Scope list_scope.

(** ** Package [strings] *)

Module strings.

(** [strings.HasPrefix(s, prefix)]. *)
Definition HasPrefix (s prefix : string) : bool := String.prefix prefix s.

(** [strings.HasSuffix(s, suffix)]: some tail of [s] is [suffix]. *)
Fixpoint HasSuffix (s suffix : string) : bool :=
  if String.eqb s suffix then true
  else match s with
       | EmptyString => false
       | String _ s' => HasSuffix s' suffix
       end.

(** [strings.TrimSuffix(s, suffix)]: [s[:len(s)-len(suffix)]] when [s] ends
    with [suffix], [s] otherwise. *)
Definition TrimSuffix (s suffix : string) : string :=
  if HasSuffix s suffix
  then String.substring 0 (String.length s - String.length suffix) s
  else s.

(** [strings.Split(s, sep)] for a separator of one byte, as [setValue] calls
    it with [","]: the fields between the separators, always at least one. *)
Fixpoint Split1 (s : string) (sep : ascii) : list string :=
  match s with
  | EmptyString => [EmptyString]
  | String c s' =>
      if Ascii.eqb c sep then EmptyString :: Split1 s' sep
      else match Split1 s' sep with
           | [] => [String c EmptyString]
           | part :: parts => String c part :: parts
           end
  end.

(** [strings.Join(elems, sep)]. *)
Fixpoint Join (elems : list string) (sep : string) : string :=
  match elems with
  | [] => EmptyString
  | [a] => a
  | a :: elems' => String.append a (String.append sep (Join elems' sep))
  end.

End strings.

(** ** Slices of [int] and the arrays behind them *)

Module Slices.

(** A slice header: the address of the backing array, the length and the
    capacity.  Every slice [schema] builds starts at offset 0. *)
Record slice := Slice { arr : nat; len : nat; cap : nat }.

(** The arrays allocated so far, by address. *)
Definition store := list (list nat).

(** The [nil] slice: no array, length and capacity 0. *)
Definition nil_slice : slice := Slice 0 0 0.

(** The capacity [runtime.growslice] picks when [needed] elements must fit
    in a slice of capacity [oldcap]: the requested size when it is more than
    double, double below 256 elements, a quarter more above.  The sizes
    [schema] reaches (1, 2, 4, 8, ... elements of 8 bytes) are size classes
    of the allocator, so rounding up to a size class changes nothing. *)
Definition growslice_cap (oldcap needed : nat) : nat :=
  let doublecap := oldcap + oldcap in
  if (doublecap <? needed)%nat then needed
  else if (oldcap <? 256)%nat then doublecap
  else oldcap + (oldcap + 768) / 4.

(** [append(s, x)]: written in place into the shared array when there is
    room, into a fresh, larger array otherwise. *)
Definition append (h : store) (s : slice) (x : nat) : store * slice :=
  if (len s <? cap s)%nat then
    (<[arr s := <[len s := x]> (default [] (h !! arr s))]> h,
     Slice (arr s) (S (len s)) (cap s))
  else
    let c := growslice_cap (cap s) (S (len s)) in
    let old := take (len s) (default [] (h !! arr s)) in
    (h ++ [old ++ x :: replicate (c - S (len s)) 0],
     Slice (length h) (S (len s)) c).

(** The elements of a slice, [s[0:len(s)]]. *)
Definition elems (h : store) (s : slice) : list nat :=
  take (len s) (default [] (h !! arr s)).

End Slices.

(** ** Types and values seen through [reflect] *)

(** [reflect.Kind]. *)
Inductive Kind :=
| Invalid | Bool
| Int | Int8 | Int16 | Int32 | Int64
| Uint | Uint8 | Uint16 | Uint32 | Uint64 | Uintptr
| Float32 | Float64 | Complex64 | Complex128
| Array | Chan | Func | Interface | Map | Ptr | Slice | String_ | Struct
| UnsafePointer.

(** What [reflect.StructField] tells about a field, its type apart.  A tag is
    kept as its list of key/value pairs, in the order they are written. *)
Record StructField := Field_ {
  Name : string;
  PkgPath : string;
  Tag : list (string * string)
}.

(** [f.Tag.Lookup(key)]: the value of the first pair with that key. *)
Fixpoint Lookup (tag : list (string * string)) (key : string) : option string :=
  match tag with
  | [] => None
  | (k, v) :: tag' => if String.eqb k key then Some v else Lookup tag' key
  end.

(** A [reflect.Type].  [time.Duration] and [time.Time] are the two named
    types the code tells apart from their kinds; [TOther k] stands for the
    types of the remaining kinds (bool, unsigned integers, maps, channels,
    ...).  The types are finite trees: a struct type that contains itself,
    through a pointer, has no term here.  On such a type [schema], which
    keeps no set of the types it has visited, does not return; what is
    stated below of [schema] is stated of the types that have a term. *)
Inductive ty :=
| TString
| TInt | TInt8 | TInt16 | TInt32 | TInt64
| TFloat32 | TFloat64
| TDuration
| TTime
| TOther (k : Kind)
| TPtr (elem : ty)
| TSlice (elem : ty)
| TStruct (fields : list (StructField * ty)).

(** [t.Kind()]. *)
Definition Kind_of (t : ty) : Kind :=
  match t with
  | TString => String_
  | TInt => Int | TInt8 => Int8 | TInt16 => Int16 | TInt32 => Int32
  | TInt64 => Int64
  | TFloat32 => Float32 | TFloat64 => Float64
  | TDuration => Int64
  | TTime => Struct
  | TOther k => k
  | TPtr _ => Ptr
  | TSlice _ => Slice
  | TStruct _ => Struct
  end.

(** The values of these types.  A float is kept as its IEEE 754 bit
    pattern, a [time.Time] as the integer code the parser of the environment
    gives it (0 for the zero [Time]); a [nil] slice is the empty list. *)
Inductive val :=
| VString (s : string)
| VInt (n : Z)
| VFloat (bits : Z)
| VTime (t : Z)
| VOther
| VPtr (p : option val)
| VSlice (elems : list val)
| VStruct (fields : list val).

(** The zero value of a type, as [reflect.New] and [reflect.MakeSlice]
    produce it. *)
Fixpoint zero (t : ty) : val :=
  match t with
  | TString => VString EmptyString
  | TInt | TInt8 | TInt16 | TInt32 | TInt64 | TDuration => VInt 0
  | TFloat32 | TFloat64 => VFloat 0
  | TTime => VTime 0
  | TOther _ => VOther
  | TPtr _ => VPtr None
  | TSlice _ => VSlice []
  | TStruct fields =>
      VStruct ((fix zeros (fs : list (StructField * ty)) : list val :=
                  match fs with
                  | [] => []
                  | (_, t') :: fs' => zero t' :: zeros fs'
                  end) fields)
  end.

(** ** The entries of the parameter store (package [service/ssm]) *)

Module ssm.

(** [ssm.ParameterType]. *)
Inductive ParameterType :=
| ParameterTypeString
| ParameterTypeStringList
| ParameterTypeSecureString.

(** [ssm.Parameter] (the name is a keyword here), with the fields the binder reads.  [Name] and [Value]
    are pointers in Go; the service sets both, and the entry [setValue]
    makes for an element of a list has no name, here the empty one. *)
Record Parameter_ := {
  Name : string;
  Type_ : ParameterType;
  Value : string
}.

(** [ssm.GetParametersInput]. *)
Record GetParametersInput := {
  Names : list string;
  WithDecryption : bool
}.

End ssm.

(** [Client]: [GetParametersRequest(input).Send(ctx)] answers with the
    entries found or with an error. *)
Definition Client : Type := ssm.GetParametersInput -> string + list ssm.Parameter_.

(** ** Errors *)

(** [strconv.ErrSyntax] and [strconv.ErrRange]. *)
Inductive NumCause := ErrSyntax | ErrRange.

(** [strconv.NumError]: the string that failed to parse and why. *)
Record NumError := { Num : string; Err : NumCause }.

(** The [error] values of the package: one constructor for each
    [fmt.Errorf] of [ssm.go], named after its format, and [NotFoundError]. *)
Inductive error :=
| ErrLoadConfig (cause : string)          (* load external aws config: %v *)
| ErrNotPointer                           (* target is not a pointer *)
| ErrNilPointer                           (* target is a nil pointer *)
| ErrNotStruct                            (* target is not a pointer to a struct *)
| ErrReadSSM (cause : string)             (* read ssm: %v *)
| ErrKey (name : string) (cause : error)  (* %s: %v, with the key path *)
| NotFoundError (names : list string)
| ErrMustBeExported (field : string)      (* field %q must be exported *)
| ErrCannotAssign (pt : ssm.ParameterType) (t : ty)   (* cannot assign %s to %s *)
| ErrCannotSet (pt : ssm.ParameterType) (t : ty)      (* cannot set %s to %s *)
| ErrSetSliceIndex (i : nat) (cause : error)          (* set slice index %d: %v *)
| ErrUnsupported (k : Kind)                           (* unsupported: %s *)
| ErrParseInt (num : string) (cause : NumCause)       (* parse %q as int: %v *)
| ErrParseFloat (num : string) (cause : NumCause)     (* parse %q as float: %v *)
| ErrTime (msg : string).                 (* an error of package time, as it is *)

(** What a function that may fail or panic gives back. *)
Inductive result (A : Type) :=
| Ok (a : A)
| Fail (e : error)
| Panic.
Arguments Ok {A} a.
Arguments Fail {A} e.
Arguments Panic {A}.

(** ** Package [strconv]: [ParseInt(s, 10, 64)] *)

Module strconv.

Definition maxUint64 : Z := 2 ^ 64 - 1.

(** The digit loop of [ParseUint(s, 10, 64)]: a byte that is no decimal digit
    is a syntax error, a value beyond 64 bits a range error, whichever comes
    first from the left. *)
Fixpoint ParseUint_loop (s : string) (n : Z) : NumCause + Z :=
  match s with
  | EmptyString => inr n
  | String c s' =>
      let b := Z.of_nat (nat_of_ascii c) in
      if ((48 <=? b) && (b <=? 57))%Z then
        let d := (b - 48)%Z in
        if (maxUint64 / 10 + 1 <=? n)%Z then inl ErrRange
        else
          let n1 := (n * 10 + d)%Z in
          if (maxUint64 <? n1)%Z then inl ErrRange
          else ParseUint_loop s' n1
      else inl ErrSyntax
  end.

(** [ParseUint(s, 10, 64)]. *)
Definition ParseUint (s : string) : NumCause + Z :=
  match s with
  | EmptyString => inl ErrSyntax
  | _ => ParseUint_loop s 0
  end.

(** [ParseInt(s, 10, 64)]: an optional sign, then [ParseUint]; the value must
    fit in 64 bits.  The error names the whole of [s]. *)
Definition ParseInt (s : string) : NumError + Z :=
  match s with
  | EmptyString => inl {| Num := s; Err := ErrSyntax |}
  | String c s' =>
      let '(neg, digits) :=
        if Ascii.eqb c "+"%char then (false, s')
        else if Ascii.eqb c "-"%char then (true, s')
        else (false, s) in
      match ParseUint digits with
      | inl ErrSyntax => inl {| Num := s; Err := ErrSyntax |}
      | inl ErrRange => inl {| Num := s; Err := ErrRange |}
      | inr un =>
          let cutoff := (2 ^ 63)%Z in
          if negb neg && (cutoff <=? un)%Z then inl {| Num := s; Err := ErrRange |}
          else if neg && (cutoff <? un)%Z then inl {| Num := s; Err := ErrRange |}
          else inr (if neg then (- un)%Z else un)
      end
  end.

End strconv.

(** ** What the binder takes from its environment

    The parsers of packages [time] and [strconv] for durations, times and
    floats, the narrowing of a [float64] to a [float32], the default client
    of the platform, and the order in which a [range] over a map visits the
    keys: any order, which may differ from one loop to the next ([site]). *)
Class GoEnv := {
  time_ParseDuration : string -> string + Z;
  time_Parse : string -> string -> string + Z;
  strconv_ParseFloat : string -> NumError + Z;
  float32_of : Z -> Z;
  aws_Config : Type;
  external_LoadDefaultAWSConfig : string + aws_Config;
  ssm_New : aws_Config -> Client;
  map_range : nat -> gmap string (list nat) -> list string;
  map_range_perm : forall site m, map_range site m ≡ₚ (map_to_list m).*1
}.

(** ** [ParamStore] and its options *)

(** The converters the options install, one constructor for each closure. *)
Inductive Converter :=
| ParseDuration
| ParseTime (layout : string)
| ParseNumber.

Record ParamStore := {
  prefix : string;
  tag : string;
  converters : list Converter;
  cli : option Client
}.

(** [Option]: a function that sets something in the store. *)
Definition Option : Type := ParamStore -> ParamStore.

Definition WithPrefix (prefix0 : string) : Option := fun s =>
  let prefix1 :=
    if negb (strings.HasPrefix prefix0 "/") then String.append "/" prefix0
    else prefix0 in
  let prefix2 := strings.TrimSuffix prefix1 "/" in
  {| prefix := prefix2; tag := tag s; converters := converters s; cli := cli s |}.

Definition WithTag (tag0 : string) : Option := fun s =>
  {| prefix := prefix s; tag := tag0; converters := converters s; cli := cli s |}.

Definition WithParseDuration : Option := fun s =>
  {| prefix := prefix s; tag := tag s;
     converters := converters s ++ [ParseDuration]; cli := cli s |}.

Definition WithParseTime (layout : string) : Option := fun s =>
  {| prefix := prefix s; tag := tag s;
     converters := converters s ++ [ParseTime layout]; cli := cli s |}.

Definition WithParseNumber : Option := fun s =>
  {| prefix := prefix s; tag := tag s;
     converters := converters s ++ [ParseNumber]; cli := cli s |}.

Definition WithClient (client : Client) : Option := fun s =>
  {| prefix := prefix s; tag := tag s; converters := converters s;
     cli := Some client |}.

(** [NewParamStore(options...)].  When no option has set the client, the
    default configuration is loaded and [WithClient(ssm.New(cfg))] is
    evaluated: an option that the code builds and does not apply to [s]. *)
Definition NewParamStore `{GoEnv} (options : list Option) : error + ParamStore :=
  let s0 := {| prefix := EmptyString; tag := "ssm"; converters := []; cli := None |} in
  let s := foldl (fun s opt => opt s) s0 options in
  match cli s with
  | None =>
      match external_LoadDefaultAWSConfig with
      | inl err => inl (ErrLoadConfig err)
      | inr cfg =>
          let _ := WithClient (ssm_New cfg) in
          inr s
      end
  | Some _ => inr s
  end.

(** ** Conversion: the converters and [setValue] *)

(** What a converter answers: [(false, nil)], [(true, nil)] with the value it
    has set, or an error. *)
Inductive conv_result :=
| ConvPass
| ConvSet (v : val)
| ConvErr (e : error).

(** The width in bits of an integer kind. *)
Definition int_bits (k : Kind) : Z :=
  match k with
  | Int8 => 8
  | Int16 => 16
  | Int32 => 32
  | _ => 64
  end.

(** The conversion [intN(x)] of an [int64]: the low [bits] bits, read as a
    signed number. *)
Definition truncate (bits x : Z) : Z :=
  ((x + 2 ^ (bits - 1)) mod 2 ^ bits - 2 ^ (bits - 1))%Z.

(** [value.SetInt(x)]: stores [int8(x)], [int16(x)], ... by the kind. *)
Definition SetInt (k : Kind) (x : Z) : val := VInt (truncate (int_bits k) x).

(** [value.SetFloat(x)]: stores [float32(x)] or [x] by the kind. *)
Definition SetFloat `{GoEnv} (k : Kind) (x : Z) : val :=
  match k with
  | Float32 => VFloat (float32_of x)
  | _ => VFloat x
  end.

(** One converter offered an entry and a field of type [t]. *)
Definition convert `{GoEnv} (conv : Converter) (param : ssm.Parameter_) (t : ty)
  : conv_result :=
  match conv with
  | ParseDuration =>
      match t with
      | TDuration =>
          match time_ParseDuration (ssm.Value param) with
          | inl err => ConvErr (ErrTime err)
          | inr d => ConvSet (VInt d)
          end
      | _ => ConvPass
      end
  | ParseTime layout =>
      match t with
      | TTime =>
          match time_Parse layout (ssm.Value param) with
          | inl err => ConvErr (ErrTime err)
          | inr t0 => ConvSet (VTime t0)
          end
      | _ => ConvPass
      end
  | ParseNumber =>
      match Kind_of t with
      | Int | Int8 | Int16 | Int32 | Int64 =>
          match strconv.ParseInt (ssm.Value param) with
          | inl nerr => ConvErr (ErrParseInt (Num nerr) (Err nerr))
          | inr num => ConvSet (SetInt (Kind_of t) num)
          end
      | Float32 | Float64 =>
          match strconv_ParseFloat (ssm.Value param) with
          | inl nerr => ConvErr (ErrParseFloat (Num nerr) (Err nerr))
          | inr num => ConvSet (SetFloat (Kind_of t) num)
          end
      | _ => ConvPass
      end
  end.

(** The loop of [setValue] over the converters: the first that sets the
    value or fails decides; [ConvPass] when all pass. *)
Fixpoint run_converters `{GoEnv} (convs : list Converter)
  (p : ssm.Parameter_) (t : ty) : conv_result :=
  match convs with
  | [] => ConvPass
  | conv :: convs' =>
      match convert conv p t with
      | ConvErr err => ConvErr err
      | ConvSet v => ConvSet v
      | ConvPass => run_converters convs' p t
      end
  end.

(** The loop of [setValue] over the parts of a list: each part becomes an
    entry of type [String] and is converted at its index; the first failure
    ends the loop. *)
Fixpoint set_parts (set : ssm.Parameter_ -> error + val)
  (parts : list string) (i : nat) : error + list val :=
  match parts with
  | [] => inr []
  | part :: parts' =>
      let sliceParam :=
        {| ssm.Name := EmptyString; ssm.Type_ := ssm.ParameterTypeString;
           ssm.Value := part |} in
      match set sliceParam with
      | inl err => inl (ErrSetSliceIndex i err)
      | inr x =>
          match set_parts set parts' (S i) with
          | inl err => inl err
          | inr xs => inr (x :: xs)
          end
      end
  end.

(** [s.setValue(p, v)] for a field [v] of type [t]: the value the field
    holds afterwards, or the error; on an error the field is left as it
    was.  The code reads nothing of [v] but its type. *)
Fixpoint setValue `{GoEnv} (s : ParamStore) (p : ssm.Parameter_) (t : ty)
  {struct t} : error + val :=
  match run_converters (converters s) p t with
  | ConvErr err => inl err
  | ConvSet v => inr v
  | ConvPass =>
      match t with
      | TString =>
          match ssm.Type_ p with
          | ssm.ParameterTypeString | ssm.ParameterTypeSecureString =>
              inr (VString (ssm.Value p))
          | _ => inl (ErrCannotAssign (ssm.Type_ p) t)
          end
      | TSlice elem =>
          match ssm.Type_ p with
          | ssm.ParameterTypeStringList =>
              let parts := strings.Split1 (ssm.Value p) ","%char in
              match set_parts (fun sliceParam => setValue s sliceParam elem) parts 0 with
              | inl err => inl err
              | inr slice => inr (VSlice slice)
              end
          | _ => inl (ErrCannotSet (ssm.Type_ p) t)
          end
      | _ => inl (ErrUnsupported (Kind_of t))
      end
  end.

(** ** Schema resolution: [ParamStore.schema] *)

(** [s.schema(t, keyPrefix, index)], threading the store of arrays: the map
    from key paths to slices of field indexes.  [time.Time] has no tagged
    field, so its schema is empty; [NumField] panics on a type that is no
    struct. *)
Fixpoint schema (s : ParamStore) (t : ty) (keyPrefix : string)
  (index : Slices.slice) (h : Slices.store) {struct t}
  : result (Slices.store * gmap string Slices.slice) :=
  match t with
  | TStruct fields =>
      (fix fields_loop (fs : list (StructField * ty)) (i : nat)
           (m : gmap string Slices.slice) (h : Slices.store) {struct fs} :=
         match fs with
         | [] => Ok (h, m)
         | (f, fty) :: fs' =>
             match Lookup (Tag f) (tag s) with
             | None => fields_loop fs' (S i) m h
             | Some name =>
                 if negb (String.eqb (PkgPath f) EmptyString)
                 then Fail (ErrMustBeExported (Name f))
                 else
                   let name := String.append keyPrefix (String.append "/" name) in
                   let ty0 := match fty with TPtr elem => elem | _ => fty end in
                   match ty0 with
                   | TStruct _ =>
                       let '(h1, index1) := Slices.append h index i in
                       match schema s ty0 name index1 h1 with
                       | Ok (h2, nested) => fields_loop fs' (S i) (nested ∪ m) h2
                       | Fail err => Fail err
                       | Panic => Panic
                       end
                   | _ =>
                       let '(h1, index1) := Slices.append h index i in
                       fields_loop fs' (S i) (<[name := index1]> m) h1
                   end
             end
         end) fields 0 ∅ h
  | TTime => Ok (h, ∅)
  | _ => Panic
  end.

(** ** Binding: [ParamStore.Read] *)

(** Where the walk of an access path ends: at a field, with its type, its
    value and the way to put a value back into the target (in which the
    pointers met on the way are allocated); or in a panic of
    [reflect.Value.Field], with the target as the walk leaves it. *)
Inductive walked :=
| Reached (t : ty) (v : val) (put : val -> val)
| WalkPanic (target : val).

(** [field.Kind() == reflect.Ptr && field.IsNil()], with [field.Type().Elem()]
    when it holds. *)
Definition nil_pointer (t : ty) (v : val) : option ty :=
  match t, v with
  | TPtr elem, VPtr None => Some elem
  | _, _ => None
  end.

(** The inner loop of [Read]: [field = field.Field(i)] for each index, and
    for a nil pointer [field.Set(reflect.New(...))] and [field.Elem()].  A
    pointer that is not nil is not followed.  [Field] panics on a value that
    is no struct and on an index out of range; the fields of a [time.Time]
    are not modelled (no access path leads into one), [Field] on it counts
    as a panic. *)
Fixpoint walk (index : list nat) (t : ty) (v : val) : walked :=
  match index with
  | [] => Reached t v (fun x => x)
  | i :: index' =>
      match t, v with
      | TStruct fields, VStruct vs =>
          match fields !! i, vs !! i with
          | Some (_, ft), Some fv =>
              match nil_pointer ft fv with
              | Some elem =>
                  match walk index' elem (zero elem) with
                  | Reached t' v' put =>
                      Reached t' v' (fun x => VStruct (<[i := VPtr (Some (put x))]> vs))
                  | WalkPanic e => WalkPanic (VStruct (<[i := VPtr (Some e)]> vs))
                  end
              | None =>
                  match walk index' ft fv with
                  | Reached t' v' put =>
                      Reached t' v' (fun x => VStruct (<[i := put x]> vs))
                  | WalkPanic e => WalkPanic (VStruct (<[i := e]> vs))
                  end
              end
          | _, _ => WalkPanic v
          end
      | _, _ => WalkPanic v
      end
  end.

(** How the loop over the returned entries ends. *)
Inductive loop_end :=
| LoopDone
| LoopError (err : error)
| LoopPanic.

(** What the loop leaves: the target, what remains of the schema, how it
    ended, and the number of entries it took up (the last of them is the
    one that failed or panicked, if one did). *)
Record loop_state := {
  target : val;
  remaining : gmap string (list nat);
  ended : loop_end;
  taken : nat
}.

(** The loop of [Read] over [resp.Parameters].  For a name that is not in
    the schema, [schema[name]] is the nil slice and [delete] does nothing:
    the walk is empty and [setValue] is called on the struct itself. *)
Fixpoint entries_loop `{GoEnv} (s : ParamStore) (T : ty)
  (params : list ssm.Parameter_) (val0 : val) (schema0 : gmap string (list nat))
  : loop_state :=
  match params with
  | [] => {| target := val0; remaining := schema0; ended := LoopDone; taken := 0 |}
  | param :: params' =>
      let name := ssm.Name param in
      let index := default [] (schema0 !! name) in
      let schema1 := delete name schema0 in
      match walk index T val0 with
      | WalkPanic val1 =>
          {| target := val1; remaining := schema1; ended := LoopPanic; taken := 1 |}
      | Reached ft fv put =>
          match setValue s param ft with
          | inl err =>
              {| target := put fv; remaining := schema1;
                 ended := LoopError (ErrKey name err); taken := 1 |}
          | inr fv' =>
              let st := entries_loop s T params' (put fv') schema1 in
              {| target := target st; remaining := remaining st;
                 ended := ended st; taken := S (taken st) |}
          end
      end
  end.

(** What a call of [Read] does: it returns, with the target as it leaves it
    and the error if any, or it panics. *)
Inductive outcome :=
| Returns (target : val) (err : option error)
| Panics (target : val).

(** The access paths of the schema, read off the arrays once [schema] is
    done. *)
Definition schema_paths (s : ParamStore) (T : ty)
  : result (gmap string (list nat)) :=
  match schema s T (prefix s) Slices.nil_slice [] with
  | Ok (h, m) => Ok (Slices.elems h <$> m)
  | Fail err => Fail err
  | Panic => Panic
  end.

(** [s.Read(ctx, target)] for a target of type [t] and value [v].  A value
    that is not of its type has no behaviour to model and counts as a
    panic, as does the call of a nil client. *)
Definition Read `{GoEnv} (s : ParamStore) (t : ty) (v : val) : outcome :=
  match t with
  | TPtr T =>
      match v with
      | VPtr None => Returns v (Some ErrNilPointer)
      | VPtr (Some val0) =>
          match Kind_of T with
          | Struct =>
              match schema_paths s T with
              | Fail err => Returns v (Some err)
              | Panic => Panics v
              | Ok schema0 =>
                  let names := map_range 0 schema0 in
                  let input :=
                    {| ssm.Names := names; ssm.WithDecryption := true |} in
                  match cli s with
                  | None => Panics v
                  | Some client =>
                      match client input with
                      | inl err => Returns v (Some (ErrReadSSM err))
                      | inr params =>
                          let st := entries_loop s T params val0 schema0 in
                          match ended st with
                          | LoopPanic => Panics (VPtr (Some (target st)))
                          | LoopError err =>
                              Returns (VPtr (Some (target st))) (Some err)
                          | LoopDone =>
                              if (0 <? size (remaining st))%nat
                              then Returns (VPtr (Some (target st)))
                                     (Some (NotFoundError (map_range 1 (remaining st))))
                              else Returns (VPtr (Some (target st))) None
                          end
                      end
                  end
              end
          | _ => Returns v (Some ErrNotStruct)
          end
      | _ => Panics v
      end
  | _ => Returns v (Some ErrNotPointer)
  end.

(** ** Notions the properties are stated with *)

(** What lies behind a field for an access path that goes on: what an
    allocated pointer points to, nothing behind another pointer, the field
    itself when it is no pointer. *)
Definition through (t : ty) (v : val) : option (ty * val) :=
  match t, v with
  | TPtr elem, VPtr (Some x) => Some (elem, x)
  | TPtr _, _ => None
  | _, _ => Some (t, v)
  end.

(** The field that the access path [q] names in a target of type [T] and
    value [v], with its type: each index picks a field of a struct, and a
    pointer on the way is followed when it is allocated.  The last field is
    given as it is, pointer or not. *)
Fixpoint field_at (T : ty) (v : val) (q : list nat) : option (ty * val) :=
  match q with
  | [] => None
  | i :: q' =>
      match T, v with
      | TStruct fields, VStruct vs =>
          match fields !! i, vs !! i with
          | Some (_, ft), Some fv =>
              match q' with
              | [] => Some (ft, fv)
              | _ =>
                  match through ft fv with
                  | Some (t', v') => field_at t' v' q'
                  | None => None
                  end
              end
          | _, _ => None
          end
      | _, _ => None
      end
  end.

(** [allocates v v']: [v'] is [v] but for nil pointers in fields of structs
    that have become pointers to something. *)
Inductive allocates : val -> val -> Prop :=
| allocates_same v : allocates v v
| allocates_new x : allocates (VPtr None) (VPtr (Some x))
| allocates_fields vs vs' :
    Forall2 allocates vs vs' -> allocates (VStruct vs) (VStruct vs').

(** Some entry among [params] has in the schema [m] an access path that
    goes through the field at [q]: its key path lies under that field. *)
Definition named_through (m : gmap string (list nat)) (q : list nat)
  (params : list ssm.Parameter_) : Prop :=
  exists p index,
    p ∈ params /\ m !! ssm.Name p = Some index /\ q `prefix_of` index.

(** In the words of the specification: the annotated leaf fields of a
    record type, each with the annotations of its ancestors, outermost
    first, and its own.  A field is a leaf when its type, or the type its
    pointer type points to, is no record ([time.Time] counts as none); only
    fields under annotated ancestors are met. *)
Fixpoint annotated_leaves (tagname : string) (T : ty) (ancestors : list string)
  {struct T} : list (list string * string) :=
  match T with
  | TStruct fields =>
      (fix of_fields (fs : list (StructField * ty)) : list (list string * string) :=
         match fs with
         | [] => []
         | (f, fty) :: fs' =>
             match Lookup (Tag f) tagname with
             | None => []
             | Some name =>
                 let ty0 := match fty with TPtr elem => elem | _ => fty end in
                 match ty0 with
                 | TStruct _ => annotated_leaves tagname ty0 (ancestors ++ [name])
                 | _ => [(ancestors, name)]
                 end
             end ++ of_fields fs'
         end) fields
  | _ => []
  end.

(** In the words of the specification: the prefix, then each annotation
    after a slash. *)
Definition join_path (keyPrefix : string) (annotations : list string) : string :=
  foldl (fun path a => String.append path (String.append "/" a)) keyPrefix annotations.

(** In the words of the specification: the key path of a leaf. *)
Definition key_path (keyPrefix : string) (leaf : list string * string) : string :=
  join_path keyPrefix (leaf.1 ++ [leaf.2]).

(** Every annotated field that [schema] meets is exported. *)
Fixpoint annotated_exported (tagname : string) (T : ty) {struct T} : bool :=
  match T with
  | TStruct fields =>
      (fix of_fields (fs : list (StructField * ty)) : bool :=
         match fs with
         | [] => true
         | (f, fty) :: fs' =>
             match Lookup (Tag f) tagname with
             | None => true
             | Some _ =>
                 String.eqb (PkgPath f) EmptyString
                 && (let ty0 := match fty with TPtr elem => elem | _ => fty end in
                     match ty0 with
                     | TStruct _ => annotated_exported tagname ty0
                     | _ => true
                     end)
             end && of_fields fs'
         end) fields
  | _ => true
  end.

(** What [schema] gives on a record type all of whose annotated fields are
    exported: a map whose keys are the key paths of the annotated leaves. *)
Definition keys_resolved (s : ParamStore) (T : ty) : Prop :=
  forall fields, T = TStruct fields ->
  forall (ancestors : list string) (keyPrefix : string)
         (index : Slices.slice) (h : Slices.store),
    annotated_exported (tag s) T = true ->
    exists h' m,
      schema s T (join_path keyPrefix ancestors) index h = Ok (h', m)
      /\ forall k, is_Some (m !! k)
                   <-> k ∈ key_path keyPrefix <$> annotated_leaves (tag s) T ancestors.

(** An option that leaves the client of the store as it is. *)
Definition keeps_client (opt : Option) : Prop := forall s, cli (opt s) = cli s.

(** The types through which an access path can go on: structs and
    pointers. *)
Definition passable (t : ty) : bool :=
  match t with
  | TStruct _ | TPtr _ => true
  | _ => false
  end.

(** ** Sample configurations *)

Module Sample.

(** An environment to run the samples in: its parsers of durations, times
    and floats accept nothing, its default configuration loads, its default
    client finds nothing, and [range] visits the keys of a map in the order
    of [map_to_list]. *)
Definition env : GoEnv := {|
  time_ParseDuration := fun s => inl s;
  time_Parse := fun _ s => inl s;
  strconv_ParseFloat := fun s => inl {| Num := s; Err := ErrSyntax |};
  float32_of := fun x => x;
  aws_Config := unit;
  external_LoadDefaultAWSConfig := inr tt;
  ssm_New := fun _ _ => inr [];
  map_range := fun _ m => (map_to_list m).*1;
  map_range_perm := fun _ _ => reflexivity _
|}.

(** An exported field [name] with the tag [ssm:"key"]. *)
Definition field (name key : string) : StructField :=
  {| Name := name; PkgPath := EmptyString; Tag := [("ssm", key)] |}.

(** An entry of type [String]. *)
Definition stringParam (name value : string) : ssm.Parameter_ :=
  {| ssm.Name := name; ssm.Type_ := ssm.ParameterTypeString; ssm.Value := value |}.

(** An entry of type [StringList]. *)
Definition stringListParam (name value : string) : ssm.Parameter_ :=
  {| ssm.Name := name; ssm.Type_ := ssm.ParameterTypeStringList; ssm.Value := value |}.

(** A client that answers every request with the same entries, asked for or
    not. *)
Definition fixedClient (params : list ssm.Parameter_) : Client :=
  fun _ => inr params.

(** An entry of type [SecureString]. *)
Definition secureStringParam (name value : string) : ssm.Parameter_ :=
  {| ssm.Name := name; ssm.Type_ := ssm.ParameterTypeSecureString; ssm.Value := value |}.

(** [mockSSM] of the tests: for each name asked for, in that order, the
    entries of [params] with that name. *)
Definition mockSSM (params : list ssm.Parameter_) : Client :=
  fun input =>
    inr (flat_map
           (fun name => filter (fun p => ssm.Name p = name) params)
           (ssm.Names input)).

(** The body of [TestParamStore_Read]: a store is made with the options of
    the test and the mock client, and reads into a new value of the
    configuration type. *)
Definition run_test (options : list Option) (params : list ssm.Parameter_)
  (config : ty) : error + outcome :=
  match @NewParamStore env (options ++ [WithClient (mockSSM params)]) with
  | inl err => inl err
  | inr ps => inr (@Read env ps (TPtr config) (VPtr (Some (zero config))))
  end.

(** The store [NewParamStore(WithClient(client))] returns. *)
Definition store (client : Client) : ParamStore :=
  {| prefix := EmptyString; tag := "ssm"; converters := []; cli := Some client |}.

(** [struct { Foo string `ssm:"foo"`; Bar string `ssm:"bar"` }] *)
Definition FooBar : ty :=
  TStruct [(field "Foo" "foo", TString); (field "Bar" "bar", TString)].

(** [struct { Foo string `ssm:"foo"`;
             Ext *struct { A string `ssm:"a"` } `ssm:"ext"` }] *)
Definition FooExt : ty :=
  TStruct [(field "Foo" "foo", TString);
           (field "Ext" "ext", TPtr (TStruct [(field "A" "a", TString)]))].

(** [struct { A struct { B struct { C struct {
       X string `ssm:"x"`; Y string `ssm:"y"`
     } `ssm:"c"` } `ssm:"b"` } `ssm:"a"` }]: two leaves under three
    nested structs. *)
Definition Deep : ty :=
  TStruct [(field "A" "a",
    TStruct [(field "B" "b",
      TStruct [(field "C" "c",
        TStruct [(field "X" "x", TString); (field "Y" "y", TString)])])])].

(** The configuration of the test [Nested]. *)
Definition Nested : ty :=
  TStruct [(field "Root" "root", TString);
           (field "Database" "db",
            TStruct [(field "User" "user", TString);
                     (field "Pass" "password", TString)]);
           (field "External" "ext", TPtr (TStruct [(field "A" "a", TString)]))].

(** [struct { P *struct { B string `ssm:"b"`;
                          Q *struct { A string `ssm:"a"` } `ssm:"q"` } `ssm:"p"` }]:
    an optional struct in an optional struct. *)
Definition PQ : ty :=
  TStruct [(field "P" "p",
    TPtr (TStruct [(field "B" "b", TString);
                   (field "Q" "q", TPtr (TStruct [(field "A" "a", TString)]))]))].

End Sample.

(** ** Further notions *)

(** [NotFoundError.Error()]. *)
Definition NotFoundError_Error (names : list string) : string :=
  String.append "not found: " (strings.Join names ", ").

(** The types a converter sets, read off the test each closure starts
    with: [time.Duration] for the duration parser, [time.Time] for the time
    parser, the integer and float kinds for the number parser. *)
Definition handles (conv : Converter) (t : ty) : bool :=
  match conv with
  | ParseDuration => match t with TDuration => true | _ => false end
  | ParseTime _ => match t with TTime => true | _ => false end
  | ParseNumber =>
      match Kind_of t with
      | Int | Int8 | Int16 | Int32 | Int64 | Float32 | Float64 => true
      | _ => false
      end
  end.

(** What [setValue] returns when a converter has decided. *)
Definition decided (r : conv_result) (otherwise : error + val) : error + val :=
  match r with
  | ConvErr err => inl err
  | ConvSet v => inr v
  | ConvPass => otherwise
  end.

(** The entry [setValue] makes for a part of a list. *)
Definition sliceParam (part : string) : ssm.Parameter_ :=
  {| ssm.Name := EmptyString; ssm.Type_ := ssm.ParameterTypeString;
     ssm.Value := part |}.

(** The number of bytes [c] in [s]. *)
Fixpoint count_byte (c : ascii) (s : string) : nat :=
  match s with
  | EmptyString => 0
  | String a s' => (if Ascii.eqb a c then 1 else 0) + count_byte c s'
  end.

(** The integer kinds, which [ParseNumber] sets with [SetInt]. *)
Definition int_kind (k : Kind) : bool :=
  match k with
  | Int | Int8 | Int16 | Int32 | Int64 => true
  | _ => false
  end.

(** What is found at the end of the access path [q]: the field, or what it
    points to when it is an allocated pointer. *)
Definition value_at (T : ty) (v : val) (q : list nat) : option (ty * val) :=
  match field_at T v q with
  | Some (t, x) => through t x
  | None => None
  end.

(** Neither access path leads through the field of the other. *)
Definition apart (q index : list nat) : Prop :=
  ~ q `prefix_of` index /\ ~ index `prefix_of` q.

(** [schema] read with slices as values: the access path of a field is the
    access path of the struct around it followed by the index of the field,
    and no two paths share an array. *)
Fixpoint schema_value (s : ParamStore) (t : ty) (keyPrefix : string)
  (index : list nat) {struct t} : result (gmap string (list nat)) :=
  match t with
  | TStruct fields =>
      (fix fields_loop (fs : list (StructField * ty)) (i : nat)
           (m : gmap string (list nat)) {struct fs} :=
         match fs with
         | [] => Ok m
         | (f, fty) :: fs' =>
             match Lookup (Tag f) (tag s) with
             | None => fields_loop fs' (S i) m
             | Some name =>
                 if negb (String.eqb (PkgPath f) EmptyString)
                 then Fail (ErrMustBeExported (Name f))
                 else
                   let name := String.append keyPrefix (String.append "/" name) in
                   let ty0 := match fty with TPtr elem => elem | _ => fty end in
                   match ty0 with
                   | TStruct _ =>
                       match schema_value s ty0 name (index ++ [i]) with
                       | Ok nested => fields_loop fs' (S i) (nested ∪ m)
                       | Fail err => Fail err
                       | Panic => Panic
                       end
                   | _ => fields_loop fs' (S i) (<[name := index ++ [i]]> m)
                   end
             end
         end) fields 0 ∅
  | TTime => Ok ∅
  | _ => Panic
  end.

(** How deep annotated structs are nested in a type: 0 when no annotated
    field is a struct or a pointer to one, one more than the deepest of
    them otherwise. *)
Fixpoint nesting (tagname : string) (T : ty) {struct T} : nat :=
  match T with
  | TStruct fields =>
      (fix of_fields (fs : list (StructField * ty)) : nat :=
         match fs with
         | [] => 0
         | (f, fty) :: fs' =>
             Nat.max
               match Lookup (Tag f) tagname with
               | None => 0
               | Some _ =>
                   let ty0 := match fty with TPtr elem => elem | _ => fty end in
                   match ty0 with
                   | TStruct _ => S (nesting tagname ty0)
                   | _ => 0
                   end
               end
               (of_fields fs')
         end) fields
  | _ => 0
  end.

(** The slices of a map have their arrays in the store. *)
Definition in_store (h : Slices.store) (m : gmap string Slices.slice) : Prop :=
  map_Forall (fun _ sl => Slices.arr sl < length h) m.

(** A run of [schema] from the store [h] agrees with a result of
    [schema_value]: the same error or panic, or the access paths read from
    the slices in the final store, which extends [h]. *)
Definition agrees (h : Slices.store)
  (r : result (Slices.store * gmap string Slices.slice))
  (r' : result (gmap string (list nat))) : Prop :=
  match r with
  | Ok (h', m) =>
      r' = Ok (Slices.elems h' <$> m) /\ h `prefix_of` h' /\ in_store h' m
  | Fail e => r' = Fail e
  | Panic => r' = Panic
  end.

(** [schema] on a struct type, called with a full slice for [index] and
    shallow enough for every slice it appends to to be full, agrees with
    [schema_value]. *)
Definition refines_value (s : ParamStore) (T : ty) : Prop :=
  forall fields, T = TStruct fields ->
  forall (keyPrefix : string) (index : Slices.slice) (l : list nat) (h : Slices.store),
    Slices.len index = length l ->
    Slices.cap index = length l ->
    Slices.elems h index = l ->
    length l + nesting (tag s) T <= 2 ->
    agrees h (schema s T keyPrefix index h) (schema_value s T keyPrefix l).

(** The annotated fields that [schema] can meet in a struct type: the
    annotated fields of the struct itself, and those it can meet in the
    struct that is the type of an annotated field, or that the pointer type
    of an annotated field points to. *)
Inductive annotated_in (tagname : string) : ty -> StructField -> Prop :=
| annotated_here (fields : list (StructField * ty)) (f : StructField) (fty : ty)
    (name : string) :
    (f, fty) ∈ fields ->
    Lookup (Tag f) tagname = Some name ->
    annotated_in tagname (TStruct fields) f
| annotated_under (fields : list (StructField * ty)) (f : StructField) (fty : ty)
    (name : string) (fields' : list (StructField * ty)) (g : StructField) :
    (f, fty) ∈ fields ->
    Lookup (Tag f) tagname = Some name ->
    match fty with TPtr elem => elem | _ => fty end = TStruct fields' ->
    annotated_in tagname (TStruct fields') g ->
    annotated_in tagname (TStruct fields) g.

(** What a run of [schema] tells about the annotated fields [met]: a map
    only when all of them are exported, an error only for one of them that
    is not, by its name, and no panic. *)
Definition exported_result {A : Type} (met : StructField -> Prop)
  (r : result A) : Prop :=
  match r with
  | Ok _ => forall g, met g -> PkgPath g = EmptyString
  | Fail e =>
      exists g, met g /\ PkgPath g <> EmptyString /\ e = ErrMustBeExported (Name g)
  | Panic => False
  end.

(** The annotated fields that [schema] can meet from the fields [fs] of a
    struct. *)
Definition annotated_among (tagname : string) (fs : list (StructField * ty))
  (g : StructField) : Prop :=
  exists f fty name,
    (f, fty) ∈ fs
    /\ Lookup (Tag f) tagname = Some name
    /\ (g = f
        \/ exists fields',
             match fty with TPtr elem => elem | _ => fty end = TStruct fields'
             /\ annotated_in tagname (TStruct fields') g).

(** ** Facts about the functions of package [strings] *)

Section StringFacts.

Lemma append_snoc_nonempty (u : string) (c : ascii) :
  String.eqb (String.append u (String c EmptyString)) EmptyString = false.
Proof. by destruct u. Qed.

Lemma HasSuffix_snoc_1 (u : string) (c : ascii) :
  strings.HasSuffix (String.append u (String c EmptyString)) "/" = Ascii.eqb c "/".
Proof.
  induction u as [|a u IH]; simpl.
  - destruct (Ascii.eqb c "/"); reflexivity.
  - rewrite append_snoc_nonempty, IH.
    destruct (Ascii.eqb a "/"); reflexivity.
Qed.

Lemma HasSuffix_snoc_2 (u : string) (c : ascii) :
  strings.HasSuffix (String.append u (String c EmptyString)) "//"
  = Ascii.eqb c "/" && strings.HasSuffix u "/".
Proof.
  induction u as [|a u IH]; simpl.
  - destruct (Ascii.eqb c "/"); reflexivity.
  - rewrite IH. destruct u as [|b u]; simpl.
    + destruct (Ascii.eqb a "/"), (Ascii.eqb c "/"); reflexivity.
    + rewrite append_snoc_nonempty.
      destruct (Ascii.eqb a "/"), (Ascii.eqb c "/"), (Ascii.eqb b "/"); simpl;
        try reflexivity.
      all: destruct u; reflexivity.
Qed.

Lemma length_snoc (u : string) (c : ascii) :
  String.length (String.append u (String c EmptyString)) = S (String.length u).
Proof. induction u as [|a u IH]; simpl; [reflexivity | by rewrite IH]. Qed.

Lemma substring_snoc (u : string) (c : ascii) :
  String.substring 0 (String.length u) (String.append u (String c EmptyString)) = u.
Proof. induction u as [|a u IH]; simpl; [reflexivity | by rewrite IH]. Qed.

Lemma TrimSuffix_snoc (u : string) (c : ascii) :
  strings.TrimSuffix (String.append u (String c EmptyString)) "/"
  = if Ascii.eqb c "/" then u else String.append u (String c EmptyString).
Proof.
  unfold strings.TrimSuffix. rewrite HasSuffix_snoc_1.
  destruct (Ascii.eqb c "/"); [|reflexivity].
  rewrite length_snoc. simpl. rewrite Nat.sub_0_r. apply substring_snoc.
Qed.

Lemma string_snoc_view (s : string) :
  s = EmptyString \/ exists u c, s = String.append u (String c EmptyString).
Proof.
  induction s as [|a s IH]; [by left | right].
  destruct IH as [-> | (u & c & ->)].
  - by exists EmptyString, a.
  - by exists (String a u), c.
Qed.

Lemma HasPrefix_slash (s : string) :
  strings.HasPrefix s "/" = match s with String a _ => Ascii.eqb a "/" | _ => false end.
Proof.
  unfold strings.HasPrefix. destruct s as [|a s]; [reflexivity|].
  cbn [String.prefix]. destruct (ascii_dec "/" a) as [<- | Hne].
  - by destruct s.
  - symmetry. apply Ascii.eqb_neq. congruence.
Qed.

End StringFacts.

Lemma eqb_snoc_slash (u : string) (c : ascii) :
  String.eqb (String.append u (String c EmptyString)) "/"
  = String.eqb u EmptyString && Ascii.eqb c "/".
Proof.
  destruct u as [|a u]; simpl.
  - by destruct (Ascii.eqb c "/").
  - rewrite append_snoc_nonempty. by destruct (Ascii.eqb a "/").
Qed.

(** What [WithPrefix] stores for a string that ends with a slash: the
    string without that one slash, after a slash when the string does not
    start with one. *)
Lemma WithPrefix_trailing_slash (p : string) (s : ParamStore) :
  prefix (WithPrefix (String.append p "/") s)
  = if strings.HasPrefix (String.append p "/") "/" then p else String.append "/" p.
Proof.
  unfold WithPrefix; cbn [prefix].
  destruct (strings.HasPrefix (String.append p "/") "/"); cbn [negb].
  - by rewrite TrimSuffix_snoc.
  - change (String.append "/" (String.append p "/"))
      with (String.append (String "/" p) (String "/" EmptyString)).
    by rewrite TrimSuffix_snoc.
Qed.

(** C9, as amended: the prefix that [WithPrefix] stores starts with a slash
    unless the string passed is empty or a single slash; for those two the
    stored prefix is the empty prefix.  It ends with a slash exactly when
    the string passed ends with two: the stored prefix is the string
    passed, after a slash when it does not start with one, without one
    slash at its end, so that of a string with a slash at its end that one
    slash is removed and no other. *)
Theorem WithPrefix_normalizes (p : string) (s : ParamStore) :
  strings.HasPrefix (prefix (WithPrefix p s)) "/"
    = negb (String.eqb p EmptyString || String.eqb p "/")
  /\ strings.HasSuffix (prefix (WithPrefix p s)) "/" = strings.HasSuffix p "//"
  /\ prefix (WithPrefix EmptyString s) = EmptyString
  /\ prefix (WithPrefix "/" s) = EmptyString
  /\ prefix (WithPrefix p s)
     = strings.TrimSuffix
         (if strings.HasPrefix p "/" then p else String.append "/" p) "/"
  /\ prefix (WithPrefix (String.append p "/") s)
     = (if strings.HasPrefix (String.append p "/") "/" then p
        else String.append "/" p).
Proof.
  enough (strings.HasPrefix (prefix (WithPrefix p s)) "/"
            = negb (String.eqb p EmptyString || String.eqb p "/")
          /\ strings.HasSuffix (prefix (WithPrefix p s)) "/" = strings.HasSuffix p "//")
    as [Hstart Hend].
  { split; [exact Hstart|]. split; [exact Hend|].
    split; [reflexivity|]. split; [reflexivity|].
    split; [|apply WithPrefix_trailing_slash].
    unfold WithPrefix; cbn [prefix]. by destruct (strings.HasPrefix p "/"). }
  unfold WithPrefix; cbn [prefix].
  destruct (string_snoc_view p) as [-> | (u & c & ->)]; [by split|].
  rewrite HasSuffix_snoc_2, eqb_snoc_slash, append_snoc_nonempty.
  destruct (strings.HasPrefix (String.append u (String c EmptyString)) "/") eqn:Hp;
    cbn [negb].
  - rewrite TrimSuffix_snoc. destruct (Ascii.eqb c "/") eqn:Hc.
    + rewrite HasPrefix_slash in *. destruct u as [|a u]; [by split|].
      simpl in Hp. by rewrite Hp.
    + rewrite Hp, HasSuffix_snoc_1, Hc. by destruct (String.eqb u EmptyString).
  - change (String.append "/" (String.append u (String c EmptyString)))
      with (String.append (String "/" u) (String c EmptyString)).
    rewrite TrimSuffix_snoc. destruct (Ascii.eqb c "/") eqn:Hc.
    + rewrite HasPrefix_slash in *. destruct u as [|a u].
      * simpl in Hp. congruence.
      * split; [reflexivity|]. simpl. by destruct (Ascii.eqb a "/").
    + rewrite HasSuffix_snoc_1, Hc. split; [|reflexivity].
      rewrite HasPrefix_slash. simpl. by destruct (String.eqb u EmptyString).
Qed.

(** C9 as stated fails: for the empty string the stored prefix is empty and
    does not start with a slash. *)
Lemma WithPrefix_claim_fails :
  ~ (forall (p : string) (s : ParamStore),
       strings.HasPrefix (prefix (WithPrefix p s)) "/" = true
       /\ strings.HasSuffix (prefix (WithPrefix p s)) "/" = false).
Proof.
  intros Hclaim.
  destruct (Hclaim EmptyString
    {| prefix := EmptyString; tag := "ssm"; converters := []; cli := None |})
    as [Hstart _].
  discriminate Hstart.
Qed.

(** ** [setValue]: lists into slices *)

Section SetValue.
Context `{GoEnv}.

(** No converter takes a field of type [string]. *)
Lemma run_converters_string (convs : list Converter) (p : ssm.Parameter_) :
  run_converters convs p TString = ConvPass.
Proof. induction convs as [|[] convs IH]; simpl; auto. Qed.

(** No converter takes a slice. *)
Lemma run_converters_slice (convs : list Converter) (p : ssm.Parameter_) (elem : ty) :
  run_converters convs p (TSlice elem) = ConvPass.
Proof. induction convs as [|[] convs IH]; simpl; auto. Qed.

(** No converter takes a struct or a pointer, and [setValue] has no rule
    for them. *)
Lemma setValue_passable (s : ParamStore) (p : ssm.Parameter_) (t : ty) :
  passable t = true -> setValue s p t = inl (ErrUnsupported (Kind_of t)).
Proof.
  intros Ht.
  assert (run_converters (converters s) p t = ConvPass) as Hpass.
  { induction (converters s) as [|[] convs IH]; destruct t; simpl in *; auto;
      discriminate. }
  destruct t; try discriminate; simpl; by rewrite Hpass.
Qed.

(** [setValue] on a slice and an entry of type [StringList]. *)
Lemma setValue_slice_list (s : ParamStore) (name value : string) (elem : ty) :
  setValue s {| ssm.Name := name; ssm.Type_ := ssm.ParameterTypeStringList;
                ssm.Value := value |} (TSlice elem)
  = match set_parts (fun sliceParam => setValue s sliceParam elem)
            (strings.Split1 value ",") 0 with
    | inl err => inl err
    | inr slice => inr (VSlice slice)
    end.
Proof. simpl. by rewrite run_converters_slice. Qed.

(** [setValue] on a string and an entry of type [String]. *)
Lemma setValue_string (s : ParamStore) (name value : string) :
  setValue s {| ssm.Name := name; ssm.Type_ := ssm.ParameterTypeString;
                ssm.Value := value |} TString
  = inr (VString value).
Proof. simpl. by rewrite run_converters_string. Qed.

(** C5: into a slice of strings, the list [a,b,c] gives the three strings
    in that order; into a slice of any element type, each part is converted
    as an entry of type [String] at its index, the first failure being
    reported with the index; and an entry of type [String] or
    [SecureString] into a slice is an error, whatever the store. *)
Theorem setValue_slice (s : ParamStore) (name value : string) (elem : ty) :
  let list_abc := {| ssm.Name := name; ssm.Type_ := ssm.ParameterTypeStringList;
                     ssm.Value := "a,b,c" |} in
  let part x := {| ssm.Name := EmptyString; ssm.Type_ := ssm.ParameterTypeString;
                   ssm.Value := x |} in
  setValue s list_abc (TSlice TString)
    = inr (VSlice [VString "a"; VString "b"; VString "c"])
  /\ setValue s list_abc (TSlice elem)
     = match setValue s (part "a") elem with
       | inl err => inl (ErrSetSliceIndex 0 err)
       | inr a =>
           match setValue s (part "b") elem with
           | inl err => inl (ErrSetSliceIndex 1 err)
           | inr b =>
               match setValue s (part "c") elem with
               | inl err => inl (ErrSetSliceIndex 2 err)
               | inr c => inr (VSlice [a; b; c])
               end
           end
       end
  /\ setValue s {| ssm.Name := name; ssm.Type_ := ssm.ParameterTypeString;
                   ssm.Value := value |} (TSlice elem)
     = inl (ErrCannotSet ssm.ParameterTypeString (TSlice elem))
  /\ setValue s {| ssm.Name := name; ssm.Type_ := ssm.ParameterTypeSecureString;
                   ssm.Value := value |} (TSlice elem)
     = inl (ErrCannotSet ssm.ParameterTypeSecureString (TSlice elem)).
Proof.
  intros list_abc part. subst list_abc part. cbv beta. repeat split.
  - rewrite setValue_slice_list. simpl. by rewrite !run_converters_string.
  - rewrite setValue_slice_list. simpl.
    repeat (match goal with
            | |- context [setValue s ?p elem] => destruct (setValue s p elem)
            end; try reflexivity).
  - simpl. by rewrite run_converters_slice.
  - simpl. by rewrite run_converters_slice.
Qed.

(** C10: into a slice, a list whose payload is empty gives one element,
    converted from the empty string; for a slice of strings that is the
    slice of the empty string, and no error. *)
Theorem setValue_slice_empty_payload (s : ParamStore) (name : string) (elem : ty) :
  let empty_list := {| ssm.Name := name; ssm.Type_ := ssm.ParameterTypeStringList;
                       ssm.Value := EmptyString |} in
  let part := {| ssm.Name := EmptyString; ssm.Type_ := ssm.ParameterTypeString;
                 ssm.Value := EmptyString |} in
  setValue s empty_list (TSlice elem)
    = match setValue s part elem with
      | inl err => inl (ErrSetSliceIndex 0 err)
      | inr x => inr (VSlice [x])
      end
  /\ setValue s empty_list (TSlice TString) = inr (VSlice [VString EmptyString]).
Proof.
  intros empty_list part. subst empty_list part. split.
  - rewrite setValue_slice_list. simpl.
    match goal with
    | |- context [setValue s ?p elem] => destruct (setValue s p elem)
    end; reflexivity.
  - rewrite setValue_slice_list. simpl. by rewrite run_converters_string.
Qed.

(** With [WithParseNumber], whatever converters come first, an integer
    field is set by the number converter or by a converter like it. *)
Lemma run_converters_number (convs : list Converter) (p : ssm.Parameter_) :
  run_converters (convs ++ [ParseNumber]) p TInt8
  = convert ParseNumber p TInt8.
Proof.
  induction convs as [|[] convs IH]; simpl in *; auto.
  - by destruct (strconv.ParseInt (ssm.Value p)).
  - by destruct (strconv.ParseInt (ssm.Value p)).
Qed.

(** C7, where the code departs from it: with [WithParseNumber], the
    payload 300 into an [int8] field is parsed as a 64-bit integer and
    stored as [int8(300)], which is 44, without an error. *)
Theorem ParseNumber_int8_wraps (s : ParamStore) (name : string) :
  setValue (WithParseNumber s)
    {| ssm.Name := name; ssm.Type_ := ssm.ParameterTypeString; ssm.Value := "300" |}
    TInt8
  = inr (VInt 44).
Proof.
  unfold setValue, WithParseNumber; cbn [converters].
  by rewrite run_converters_number.
Qed.

End SetValue.

(** ** [NewParamStore] *)

Section NewParamStore.
Context `{GoEnv}.

(** Options that leave the client alone leave it alone together. *)
Lemma foldl_keeps_client (options : list Option) (s : ParamStore) :
  Forall keeps_client options ->
  cli (foldl (fun s opt => opt s) s options) = cli s.
Proof.
  intros Hopts. revert s.
  induction Hopts as [|opt options Hopt _ IH]; intros s; simpl; [reflexivity|].
  by rewrite IH, Hopt.
Qed.

(** C3, where the code departs from it: called with options none of which
    sets the client, in an environment whose default configuration loads,
    [NewParamStore] returns a store and no error, and the client of that
    store is nil; [Read] on it panics once the schema is resolved. *)
Theorem NewParamStore_leaves_client_nil (options : list Option) (cfg : aws_Config) :
  Forall keeps_client options ->
  external_LoadDefaultAWSConfig = inr cfg ->
  exists s,
    NewParamStore options = inr s
    /\ cli s = None
    /\ forall T v schema0,
         schema_paths s T = Ok schema0 ->
         Read s (TPtr T) (VPtr (Some v)) = Panics (VPtr (Some v)).
Proof.
  intros Hopts Hcfg. unfold NewParamStore.
  set (s0 := {| prefix := EmptyString; tag := "ssm"; converters := []; cli := None |}).
  pose proof (foldl_keeps_client options s0 Hopts) as Hcli. simpl in Hcli.
  exists (foldl (fun s opt => opt s) s0 options).
  rewrite Hcli, Hcfg. split; [reflexivity|]. split; [reflexivity|].
  intros T v schema0 Hschema. unfold Read. rewrite Hschema, Hcli.
  unfold schema_paths in Hschema.
  destruct T; simpl in *; try discriminate; reflexivity.
Qed.

End NewParamStore.

(** An instance, at [NewParamStore(WithPrefix("dev"), WithParseNumber())]. *)
Lemma NewParamStore_leaves_client_nil_witness :
  exists s,
    @NewParamStore Sample.env [WithPrefix "dev"; WithParseNumber] = inr s
    /\ cli s = None
    /\ forall T v schema0,
         schema_paths s T = Ok schema0 ->
         @Read Sample.env s (TPtr T) (VPtr (Some v)) = Panics (VPtr (Some v)).
Proof.
  apply (@NewParamStore_leaves_client_nil Sample.env
           [WithPrefix "dev"; WithParseNumber] tt).
  - repeat constructor.
  - reflexivity.
Defined.

(** ** [schema] and [Read] on the sample configurations *)

Section Samples.
Context `{GoEnv}.
Import Sample.

(** C1, where the code departs from it: under three nested structs the
    slice of indexes has room for one more element, so the paths of the
    sibling leaves [X] and [Y] are appended into one array; both key paths
    end with the access path of [Y], and [Read] puts both entries into [Y]
    and leaves [X] empty, without an error. *)
Theorem schema_siblings_share_access_path :
  let s := store (fixedClient [stringParam "/a/b/c/x" "1"; stringParam "/a/b/c/y" "2"]) in
  schema_paths s Deep
    = Ok (<["/a/b/c/x" := [0; 0; 0; 1]]> (<["/a/b/c/y" := [0; 0; 0; 1]]> ∅))
  /\ field_at Deep (zero Deep) [0; 0; 0; 0] = Some (TString, VString EmptyString)
  /\ Read s (TPtr Deep) (VPtr (Some (zero Deep)))
     = Returns
         (VPtr (Some (VStruct [VStruct [VStruct [VStruct
            [VString EmptyString; VString "2"]]]])))
         None.
Proof. repeat split; vm_compute; reflexivity. Qed.

(** C2, where the code departs from it: an entry whose key path is not in
    the schema is not skipped; [setValue] is called on the target struct,
    [Read] returns its error under that key path, and the entries after it
    are not bound. *)
Theorem Read_entry_not_in_schema :
  Read (store (fixedClient [stringParam "/other" "x"; stringParam "/foo" "abc";
                            stringParam "/bar" "def"]))
       (TPtr FooBar) (VPtr (Some (zero FooBar)))
  = Returns (VPtr (Some (zero FooBar)))
      (Some (ErrKey "/other" (ErrUnsupported Struct))).
Proof. vm_compute. reflexivity. Qed.

End Samples.

(** ** The loop of [Read] over the returned entries *)

Section Read.
Context `{GoEnv}.

(** A type whose schema resolves is of kind struct. *)
Lemma schema_paths_Struct (s : ParamStore) (T : ty) (schema0 : gmap string (list nat)) :
  schema_paths s T = Ok schema0 -> Kind_of T = Struct.
Proof. unfold schema_paths. destruct T; simpl; (discriminate || reflexivity). Qed.

(** [Read] up to the loop: the schema resolves and the client answers. *)
Lemma Read_loop (s : ParamStore) (T : ty) (v : val) (client : Client)
  (schema0 : gmap string (list nat)) (params : list ssm.Parameter_) :
  schema_paths s T = Ok schema0 ->
  cli s = Some client ->
  client {| ssm.Names := map_range 0 schema0; ssm.WithDecryption := true |}
    = inr params ->
  Read s (TPtr T) (VPtr (Some v))
  = let st := entries_loop s T params v schema0 in
    match ended st with
    | LoopPanic => Panics (VPtr (Some (target st)))
    | LoopError err => Returns (VPtr (Some (target st))) (Some err)
    | LoopDone =>
        if (0 <? size (remaining st))%nat
        then Returns (VPtr (Some (target st)))
               (Some (NotFoundError (map_range 1 (remaining st))))
        else Returns (VPtr (Some (target st))) None
    end.
Proof.
  intros Hschema Hcli Hclient. unfold Read.
  by rewrite (schema_paths_Struct _ _ _ Hschema), Hschema, Hcli, Hclient.
Qed.

(** The loop over [pre ++ rest], when it gets through [pre], goes on over
    [rest] from where [pre] leaves the target and the schema. *)
Lemma entries_loop_app (s : ParamStore) (T : ty) (pre rest : list ssm.Parameter_) :
  forall (v : val) (m : gmap string (list nat)),
    ended (entries_loop s T pre v m) = LoopDone ->
    let st1 := entries_loop s T pre v m in
    let st2 := entries_loop s T rest (target st1) (remaining st1) in
    entries_loop s T (pre ++ rest) v m
    = {| target := target st2; remaining := remaining st2; ended := ended st2;
         taken := length pre + taken st2 |}.
Proof.
  induction pre as [|p pre IH]; intros v m Hdone; simpl in *.
  - by destruct (entries_loop s T rest v m).
  - destruct (walk _ T v) as [ft fv put|]; [|discriminate].
    destruct (setValue s p ft) as [err|fv']; [discriminate|].
    simpl in *. by rewrite (IH _ _ Hdone).
Qed.

(** Membership in a list with one more element, decided. *)
Lemma elem_of_cons_dec (k a : string) (l : list string) (A : Type) (x y : A) :
  (if decide (k ∈ a :: l) then x else y)
  = if decide (k = a) then x else if decide (k ∈ l) then x else y.
Proof.
  repeat case_decide; try reflexivity; exfalso.
  - match goal with Hin : _ ∈ _ :: _ |- _ =>
      apply elem_of_cons in Hin as [?|?] end; done.
  - match goal with Hn : ¬ _ ∈ _ :: _ |- _ => apply Hn end. subst. left.
  - match goal with Hn : ¬ _ ∈ _ :: _ |- _ => apply Hn end. by right.
Qed.

(** When the loop gets through all the entries, what remains of the schema
    is what no entry has named. *)
Lemma entries_loop_remaining (s : ParamStore) (T : ty) (params : list ssm.Parameter_) :
  forall (v : val) (m : gmap string (list nat)),
    ended (entries_loop s T params v m) = LoopDone ->
    forall k : string,
      remaining (entries_loop s T params v m) !! k
      = if decide (k ∈ ssm.Name <$> params) then None else m !! k.
Proof.
  induction params as [|p params IH]; intros v m Hdone k; simpl in *.
  - reflexivity.
  - destruct (walk _ T v) as [ft fv put|]; [|discriminate].
    destruct (setValue s p ft) as [err|fv']; [discriminate|].
    simpl in *. rewrite (IH _ _ Hdone).
    rewrite elem_of_cons_dec.
    destruct (decide (k = ssm.Name p)) as [->|Hne].
    + rewrite lookup_delete_eq. by destruct (decide _).
    + rewrite lookup_delete_ne by congruence. reflexivity.
Qed.

(** C4: when the loop gets through all the returned entries and some key
    path of the schema is the name of none of them, [Read] returns a
    [NotFoundError]; its names are, without repetition, the key paths of the
    schema that no entry has named, and the target is returned with the
    fields that the entries have set. *)
Theorem Read_not_found (s : ParamStore) (T : ty) (v : val) (client : Client)
  (schema0 : gmap string (list nat)) (params : list ssm.Parameter_) (missing : string) :
  schema_paths s T = Ok schema0 ->
  cli s = Some client ->
  client {| ssm.Names := map_range 0 schema0; ssm.WithDecryption := true |}
    = inr params ->
  ended (entries_loop s T params v schema0) = LoopDone ->
  is_Some (schema0 !! missing) ->
  missing ∉ ssm.Name <$> params ->
  exists names : list string,
    Read s (TPtr T) (VPtr (Some v))
    = Returns (VPtr (Some (target (entries_loop s T params v schema0))))
        (Some (NotFoundError names))
    /\ NoDup names
    /\ forall k : string,
         k ∈ names <-> is_Some (schema0 !! k) /\ k ∉ ssm.Name <$> params.
Proof.
  intros Hschema Hcli Hclient Hdone Hmissing Hunnamed.
  pose proof (entries_loop_remaining s T params v schema0 Hdone) as Hrem.
  set (st := entries_loop s T params v schema0) in *.
  exists (map_range 1 (remaining st)).
  assert (forall k, k ∈ map_range 1 (remaining st) <-> is_Some (remaining st !! k))
    as Hnames.
  { intros k. rewrite (map_range_perm 1 (remaining st)).
    rewrite list_elem_of_fmap. split.
    - intros [[k' idx] [-> Hin]]. apply elem_of_map_to_list in Hin. by exists idx.
    - intros [idx Hk]. exists (k, idx). split; [done|].
      by apply elem_of_map_to_list. }
  split; [|split].
  - rewrite (Read_loop s T v client schema0 params Hschema Hcli Hclient).
    cbv zeta. fold st. rewrite Hdone.
    assert (0 < size (remaining st)) as Hsize.
    { destruct (decide (size (remaining st) = 0)) as [Hz|]; [|lia].
      apply map_size_empty_iff in Hz.
      specialize (Hrem missing). rewrite Hz, lookup_empty in Hrem.
      rewrite decide_False in Hrem by done.
      destruct Hmissing as [idx Hidx]. congruence. }
    apply Nat.ltb_lt in Hsize. by rewrite Hsize.
  - rewrite (map_range_perm 1 (remaining st)). apply NoDup_fst_map_to_list.
  - intros k. rewrite Hnames, Hrem. case_decide as Hk.
    + split; [by intros [? ?] | by intros [_ ?]].
    + split; [by intros ? | by intros [? _]].
Qed.

End Read.

(** An instance, at [struct { Foo; Bar }] when the client returns [/foo] alone: [Foo]
    is set and [/bar] is reported missing. *)
Lemma Read_not_found_witness :
  let client := Sample.fixedClient [Sample.stringParam "/foo" "abc"] in
  let s := Sample.store client in
  let st := @entries_loop Sample.env s Sample.FooBar [Sample.stringParam "/foo" "abc"]
              (zero Sample.FooBar) (<["/foo" := [0]]> (<["/bar" := [1]]> ∅)) in
  target st = VStruct [VString "abc"; VString EmptyString]
  /\ exists names : list string,
       @Read Sample.env s (TPtr Sample.FooBar) (VPtr (Some (zero Sample.FooBar)))
       = Returns (VPtr (Some (target st))) (Some (NotFoundError names))
       /\ NoDup names
       /\ forall k : string,
            k ∈ names
            <-> is_Some ((<["/foo" := [0]]> (<["/bar" := [1]]> ∅) : gmap string (list nat)) !! k)
                /\ k ∉ ssm.Name <$> [Sample.stringParam "/foo" "abc"].
Proof.
  intros client s st. split; [reflexivity|].
  apply (@Read_not_found Sample.env s Sample.FooBar (zero Sample.FooBar) client
           (<["/foo" := [0]]> (<["/bar" := [1]]> ∅))
           [Sample.stringParam "/foo" "abc"] "/bar").
  - reflexivity.
  - reflexivity.
  - reflexivity.
  - reflexivity.
  - exists [1]. reflexivity.
  - intros Hin. apply list_elem_of_singleton in Hin. discriminate Hin.
Defined.

(** ** The tests of the repository, run on the model *)

Module Tests.
Import Sample.

Example test_String :
  run_test [] [stringParam "/foo" "bar"] (TStruct [(field "Foo" "foo", TString)])
  = inr (Returns (VPtr (Some (VStruct [VString "bar"]))) None).
Proof. vm_compute. reflexivity. Qed.

Example test_StringList :
  run_test [] [stringListParam "/foo" "a,b,c"]
    (TStruct [(field "Foo" "foo", TSlice TString)])
  = inr (Returns
           (VPtr (Some (VStruct [VSlice [VString "a"; VString "b"; VString "c"]])))
           None).
Proof. vm_compute. reflexivity. Qed.

Example test_SecureString :
  run_test [] [secureStringParam "/foo" "foo"] (TStruct [(field "Foo" "foo", TString)])
  = inr (Returns (VPtr (Some (VStruct [VString "foo"]))) None).
Proof. vm_compute. reflexivity. Qed.

Example test_OptionPrefix :
  run_test [WithPrefix "dev"]
    [stringParam "/dev/foo" "abc"; stringParam "/prod/foo" "def"]
    (TStruct [(field "Foo" "foo", TString)])
  = inr (Returns (VPtr (Some (VStruct [VString "abc"]))) None).
Proof. vm_compute. reflexivity. Qed.

Example test_OptionPrefix_SlashSuffix :
  run_test [WithPrefix "dev/"] [stringParam "/dev/foo" "abc"]
    (TStruct [(field "Foo" "foo", TString)])
  = inr (Returns (VPtr (Some (VStruct [VString "abc"]))) None).
Proof. vm_compute. reflexivity. Qed.

Example test_OptionTag :
  run_test [WithTag "config"] [stringParam "/foo" "abc"; stringParam "/bar" "123"]
    (TStruct [({| Name := "Foo"; PkgPath := EmptyString; Tag := [("config", "foo")] |},
               TString);
              ({| Name := "Bar"; PkgPath := EmptyString; Tag := [("other", "bar")] |},
               TString)])
  = inr (Returns (VPtr (Some (VStruct [VString "abc"; VString EmptyString]))) None).
Proof. vm_compute. reflexivity. Qed.

Example test_OptionWithParseNumber :
  run_test [WithParseNumber]
    [stringParam "/a" "1"; stringParam "/b" "2"; stringParam "/c" "3";
     stringParam "/d" "4"; stringParam "/e" "5"]
    (TStruct [(field "Int" "a", TInt); (field "Int8" "b", TInt8);
              (field "Int16" "c", TInt16); (field "Int32" "d", TInt32);
              (field "Int64" "e", TInt64)])
  = inr (Returns (VPtr (Some (VStruct [VInt 1; VInt 2; VInt 3; VInt 4; VInt 5]))) None).
Proof. vm_compute. reflexivity. Qed.

Example test_OptionWithParseNumber_Slice :
  run_test [WithParseNumber] [stringListParam "/ints" "1,2,3"]
    (TStruct [(field "Ints" "ints", TSlice TInt)])
  = inr (Returns (VPtr (Some (VStruct [VSlice [VInt 1; VInt 2; VInt 3]]))) None).
Proof. vm_compute. reflexivity. Qed.

Example test_SetPointer :
  run_test [] [stringParam "/foo" "bar"] (TStruct [(field "Foo" "foo", TPtr TString)])
  = inr (Returns (VPtr (Some (VStruct [VPtr (Some (VString "bar"))]))) None).
Proof. vm_compute. reflexivity. Qed.

Example test_Nested :
  run_test []
    [stringParam "/root" "foo"; stringParam "/db/user" "bar";
     stringParam "/db/password" "baz"; stringParam "/ext/a" "qux"]
    Nested
  = inr (Returns
           (VPtr (Some (VStruct [VString "foo";
                                 VStruct [VString "bar"; VString "baz"];
                                 VPtr (Some (VStruct [VString "qux"]))])))
           None).
Proof. vm_compute. reflexivity. Qed.

Example test_IngoreUnexported :
  run_test [] [stringParam "/foo" "foo"]
    (TStruct [(field "Foo" "foo", TString);
              ({| Name := "bar"; PkgPath := "ssm"; Tag := [] |}, TString)])
  = inr (Returns (VPtr (Some (VStruct [VString "foo"; VString EmptyString]))) None).
Proof. vm_compute. reflexivity. Qed.

Example test_NotFound :
  run_test [WithPrefix "prod"] [stringParam "/dev/foo" "foo"]
    (TStruct [(field "Foo" "foo", TString)])
  = inr (Returns (VPtr (Some (VStruct [VString EmptyString])))
           (Some (NotFoundError ["/prod/foo"]))).
Proof. vm_compute. reflexivity. Qed.

Example test_ErrConvertStringToSlice :
  run_test [] [stringParam "/names" "alice"]
    (TStruct [(field "Names" "names", TSlice TString)])
  = inr (Returns (VPtr (Some (VStruct [VSlice []])))
           (Some (ErrKey "/names"
                    (ErrCannotSet ssm.ParameterTypeString (TSlice TString))))).
Proof. vm_compute. reflexivity. Qed.

Example test_ErrUnexportedWithTag :
  run_test [] [stringParam "/foo" "foo"]
    (TStruct [({| Name := "value"; PkgPath := "ssm"; Tag := [("ssm", "foo")] |},
               TString)])
  = inr (Returns (VPtr (Some (VStruct [VString EmptyString])))
           (Some (ErrMustBeExported "value"))).
Proof. vm_compute. reflexivity. Qed.

Example test_ErrUnexportedNested :
  run_test [] [stringParam "/foo/bar" "foo"]
    (TStruct [(field "Foo" "foo",
               TStruct [({| Name := "bar"; PkgPath := "ssm"; Tag := [("ssm", "bar")] |},
                         TString)])])
  = inr (Returns (VPtr (Some (VStruct [VStruct [VString EmptyString]])))
           (Some (ErrMustBeExported "bar"))).
Proof. vm_compute. reflexivity. Qed.

Example test_ErrNotSupportedInt :
  run_test [] [stringParam "/number" "123"] (TStruct [(field "Number" "number", TInt)])
  = inr (Returns (VPtr (Some (VStruct [VInt 0])))
           (Some (ErrKey "/number" (ErrUnsupported Int)))).
Proof. vm_compute. reflexivity. Qed.

Example test_ErrStringListToString :
  run_test [] [stringListParam "/names" "alice,bob"]
    (TStruct [(field "Names" "names", TString)])
  = inr (Returns (VPtr (Some (VStruct [VString EmptyString])))
           (Some (ErrKey "/names"
                    (ErrCannotAssign ssm.ParameterTypeStringList TString)))).
Proof. vm_compute. reflexivity. Qed.

Example test_ErrParseInt :
  run_test [WithParseNumber] [stringParam "/name" "alice"]
    (TStruct [(field "Name" "name", TInt)])
  = inr (Returns (VPtr (Some (VStruct [VInt 0])))
           (Some (ErrKey "/name" (ErrParseInt "alice" ErrSyntax)))).
Proof. vm_compute. reflexivity. Qed.

Example test_ErrParseIntSlice :
  run_test [] [stringListParam "/names" "alice,bob"]
    (TStruct [(field "Names" "names", TSlice TInt)])
  = inr (Returns (VPtr (Some (VStruct [VSlice []])))
           (Some (ErrKey "/names" (ErrSetSliceIndex 0 (ErrUnsupported Int))))).
Proof. vm_compute. reflexivity. Qed.

Example test_ErrEncryptedSlice :
  run_test [] [secureStringParam "/names" "alice"]
    (TStruct [(field "Names" "names", TSlice TString)])
  = inr (Returns (VPtr (Some (VStruct [VSlice []])))
           (Some (ErrKey "/names"
                    (ErrCannotSet ssm.ParameterTypeSecureString (TSlice TString))))).
Proof. vm_compute. reflexivity. Qed.

Example test_ErrUnsupported :
  run_test [] [stringParam "/foo" "bar"] (TStruct [(field "Chan" "foo", TOther Chan)])
  = inr (Returns (VPtr (Some (VStruct [VOther])))
           (Some (ErrKey "/foo" (ErrUnsupported Chan)))).
Proof. vm_compute. reflexivity. Qed.

(** [TestParamStore_Read_notPointer], [_nilPointer] and [_notStruct]: the
    store has no client, and [Read] returns before it needs one. *)
Example test_Read_target_checks :
  let ps := {| prefix := EmptyString; tag := "ssm"; converters := []; cli := None |} in
  @Read env ps (TStruct []) (VStruct []) = Returns (VStruct []) (Some ErrNotPointer)
  /\ @Read env ps (TPtr (TStruct [])) (VPtr None) = Returns (VPtr None) (Some ErrNilPointer)
  /\ @Read env ps (TPtr TString) (VPtr (Some (VString EmptyString)))
     = Returns (VPtr (Some (VString EmptyString))) (Some ErrNotStruct).
Proof. repeat split. Qed.

End Tests.

(** ** The walk of an access path *)

Section Walk.

Lemma nil_pointer_Some (t : ty) (v : val) (elem : ty) :
  nil_pointer t v = Some elem -> t = TPtr elem /\ v = VPtr None.
Proof.
  destruct t; simpl; try discriminate.
  destruct v as [| | | | |[x|]| |]; try discriminate.
  by intros [= ->].
Qed.

(** Replacing one field by one that [allocates] it. *)
Lemma allocates_insert (vs : list val) (i : nat) (a b : val) :
  vs !! i = Some a -> allocates a b -> allocates (VStruct vs) (VStruct (<[i := b]> vs)).
Proof.
  intros Hi Hab. apply allocates_fields.
  rewrite <- (list_insert_id vs i a) at 1 by done.
  apply Forall2_insert; [|done].
  apply Forall_Forall2_diag, Forall_forall. intros x _. apply allocates_same.
Qed.

(** A walk changes the target by allocating nil pointers and no more. *)
Lemma walk_allocates (index : list nat) :
  forall (T : ty) (v : val),
    match walk index T v with
    | Reached _ fv put => allocates v (put fv)
    | WalkPanic target' => allocates v target'
    end.
Proof.
  induction index as [|i index IH]; intros T v; simpl; [apply allocates_same|].
  destruct T; try apply allocates_same.
  destruct v; try apply allocates_same.
  destruct (fields !! i) as [[f ft]|] eqn:Hf; [|apply allocates_same].
  destruct (fields0 !! i) as [fv|] eqn:Hv; [|apply allocates_same].
  destruct (nil_pointer ft fv) as [elem|] eqn:Hnil.
  - apply nil_pointer_Some in Hnil as [-> ->].
    destruct (walk index elem (zero elem)); eapply allocates_insert; eauto;
      apply allocates_new.
  - specialize (IH ft fv).
    destruct (walk index ft fv); eapply allocates_insert; eauto.
Qed.

End Walk.

Section ReadErrors.
Context `{GoEnv}.

(** C6: when the loop gets through the entries before [p] and [setValue]
    fails on the field that the walk for [p] reaches, [Read] returns that
    error under the key path of [p], and no [NotFoundError]; the entries
    after [p] play no part; and the target it leaves is the target as the
    entries before [p] have set it, but for the nil pointers that the walk
    for [p] has allocated. *)
Theorem Read_conversion_error (s : ParamStore) (T : ty) (v : val) (client : Client)
  (schema0 : gmap string (list nat)) (pre post : list ssm.Parameter_)
  (p : ssm.Parameter_) (ft : ty) (fv : val) (put : val -> val) (err : error) :
  schema_paths s T = Ok schema0 ->
  cli s = Some client ->
  client {| ssm.Names := map_range 0 schema0; ssm.WithDecryption := true |}
    = inr (pre ++ p :: post) ->
  ended (entries_loop s T pre v schema0) = LoopDone ->
  walk (default [] (remaining (entries_loop s T pre v schema0) !! ssm.Name p)) T
       (target (entries_loop s T pre v schema0))
    = Reached ft fv put ->
  setValue s p ft = inl err ->
  Read s (TPtr T) (VPtr (Some v))
    = Returns (VPtr (Some (put fv))) (Some (ErrKey (ssm.Name p) err))
  /\ allocates (target (entries_loop s T pre v schema0)) (put fv).
Proof.
  intros Hschema Hcli Hclient Hpre Hwalk Hset. split.
  - rewrite (Read_loop s T v client schema0 _ Hschema Hcli Hclient).
    rewrite (entries_loop_app s T pre (p :: post) v schema0 Hpre).
    cbn [entries_loop]. rewrite Hwalk, Hset. reflexivity.
  - pose proof (walk_allocates
      (default [] (remaining (entries_loop s T pre v schema0) !! ssm.Name p)) T
      (target (entries_loop s T pre v schema0))) as Halloc.
    by rewrite Hwalk in Halloc.
Qed.

End ReadErrors.

(** An instance, at [struct { Foo; Ext *struct { A } }] when the client returns
    [/foo] as a string, [/ext/a] as a list and [/foo] again: [Foo] keeps
    the value of the first entry, [Ext] is allocated, and the error is
    that of [/ext/a]. *)
Lemma Read_conversion_error_witness :
  let pre := [Sample.stringParam "/foo" "abc"] in
  let p := Sample.stringListParam "/ext/a" "x,y" in
  let post := [Sample.stringParam "/foo" "def"] in
  let s := Sample.store (Sample.fixedClient (pre ++ p :: post)) in
  let left := VStruct [VString "abc"; VPtr (Some (VStruct [VString EmptyString]))] in
  let st1 := @entries_loop Sample.env s Sample.FooExt pre (zero Sample.FooExt)
               (<["/foo" := [0]]> (<["/ext/a" := [1; 0]]> ∅)) in
  target st1 = VStruct [VString "abc"; VPtr None]
  /\ @Read Sample.env s (TPtr Sample.FooExt) (VPtr (Some (zero Sample.FooExt)))
     = Returns (VPtr (Some left))
         (Some (ErrKey (ssm.Name p)
            (ErrCannotAssign ssm.ParameterTypeStringList TString)))
  /\ allocates (target st1) left.
Proof.
  intros pre p post s left st1. split; [reflexivity|].
  apply (@Read_conversion_error Sample.env s Sample.FooExt (zero Sample.FooExt)
           (Sample.fixedClient (pre ++ p :: post))
           (<["/foo" := [0]]> (<["/ext/a" := [1; 0]]> ∅))
           pre post p TString (VString EmptyString)
           (fun x => VStruct [VString "abc"; VPtr (Some (VStruct [x]))])
           (ErrCannotAssign ssm.ParameterTypeStringList TString)).
  - reflexivity.
  - reflexivity.
  - reflexivity.
  - reflexivity.
  - reflexivity.
  - reflexivity.
Defined.

(** ** Pointers on the way of a walk *)

Section Pointers.

Lemma through_nil_pointer (t : ty) (v : val) (elem : ty) :
  nil_pointer t v = Some elem -> through t v = None.
Proof. intros Hnil. by apply nil_pointer_Some in Hnil as [-> ->]. Qed.

(** An access path that goes on through a field goes through a struct or
    an allocated pointer. *)
Lemma through_field_at (t : ty) (v : val) (t' : ty) (v' : val) (q : list nat) :
  through t v = Some (t', v') -> is_Some (field_at t' v' q) ->
  passable t = true /\ nil_pointer t v = None.
Proof.
  intros Hthrough [tv Hq].
  destruct q as [|j q]; [discriminate|].
  destruct t; simpl in Hthrough; try injection Hthrough as <- <-;
    simpl in Hq; try discriminate; try done.
  destruct v as [| | | | |[x|]| |]; try discriminate. done.
Qed.

(** [field_at] in a struct one of whose other fields has changed. *)
Lemma field_at_insert_ne (fields : list (StructField * ty)) (vs : list val)
  (i j : nat) (y : val) (q : list nat) :
  i <> j ->
  field_at (TStruct fields) (VStruct (<[i := y]> vs)) (j :: q)
  = field_at (TStruct fields) (VStruct vs) (j :: q).
Proof. intros Hne. simpl. by rewrite list_lookup_insert_ne. Qed.

(** [field_at] in a struct at the field that has changed. *)
Lemma field_at_insert_eq (fields : list (StructField * ty)) (vs : list val)
  (i : nat) (f : StructField) (ft : ty) (fv y : val) (q : list nat) :
  fields !! i = Some (f, ft) -> vs !! i = Some fv ->
  field_at (TStruct fields) (VStruct (<[i := y]> vs)) (i :: q)
  = match q with
    | [] => Some (ft, y)
    | _ => match through ft y with
           | Some (t', v') => field_at t' v' q
           | None => None
           end
    end.
Proof.
  intros Hf Hv. simpl. rewrite Hf.
  by rewrite list_lookup_insert_eq by (by eapply lookup_lt_Some).
Qed.

Lemma through_cases (t : ty) (v : val) (t' : ty) (v' : val) :
  through t v = Some (t', v') ->
  (t' = t /\ v' = v /\ forall y, through t y = Some (t, y))
  \/ (exists x, t = TPtr t' /\ v = VPtr (Some x) /\ v' = x).
Proof.
  destruct t; simpl; try (intros [= <- <-]; by left).
  destruct v as [| | | | |[x|]| |]; try discriminate.
  intros [= <- <-]. right. by exists x.
Qed.

(** What a walk along [index] does to the pointer field at [q]: it leaves
    it as it is, unless it is nil and the walk goes through it, in which
    case it is allocated.  [x] is what is put at the end of the walk: the
    field as it was, or any value when the field is neither a struct nor a
    pointer. *)
Lemma walk_pointer (index : list nat) :
  forall (T : ty) (v : val) (q : list nat) (elem : ty) (o : option val),
    field_at T v q = Some (TPtr elem, VPtr o) ->
    match walk index T v with
    | Reached ft fv put =>
        forall x, x = fv \/ passable ft = false ->
          exists o', field_at T (put x) q = Some (TPtr elem, VPtr o')
                     /\ (is_Some o' <-> is_Some o \/ q `prefix_of` index)
    | WalkPanic target' =>
        exists o', field_at T target' q = Some (TPtr elem, VPtr o')
                   /\ (is_Some o -> is_Some o')
                   /\ (is_Some o' -> is_Some o \/ q `prefix_of` index)
    end.
Proof.
  induction index as [|i index IH]; intros T v q elem o Hq.
  - destruct q as [|j q]; [discriminate|].
    cbn [walk]. intros x [-> | Hpass].
    + exists o. split; [done|]. split; [by left|].
      intros [?|Hpre]; [done|]. by apply prefix_nil_not in Hpre.
    + destruct T; simpl in Hq; discriminate.
  - destruct q as [|j q]; [discriminate|].
    destruct T; try (simpl in Hq; discriminate).
    destruct v as [| | | | | | |vs]; try (simpl in Hq; discriminate).
    assert (forall P : Prop, exists o',
              field_at (TStruct fields) (VStruct vs) (j :: q) = Some (TPtr elem, VPtr o')
              /\ (is_Some o -> is_Some o') /\ (is_Some o' -> is_Some o \/ P))
      as Hsame by (intros P; exists o; split; [done|]; split; [done | by left]).
    cbn [walk].
    destruct (fields !! i) as [[fi fti]|] eqn:Hfi; [|apply Hsame].
    destruct (vs !! i) as [fvi|] eqn:Hvi; [|apply Hsame].
    destruct (decide (i = j)) as [->|Hne].
    2:{ assert (~ j :: q `prefix_of` i :: index) as Hnp
          by (intros Hp; by apply prefix_cons_inv_1 in Hp).
        destruct (nil_pointer fti fvi);
          match goal with |- context [walk index ?t ?v] => destruct (walk index t v) end;
          [intros x _| |intros x _|]; rewrite field_at_insert_ne by done;
          exists o; (split; [done|]); split; tauto. }
    simpl in Hq. rewrite Hfi, Hvi in Hq.
    destruct q as [|k q].
    + injection Hq as -> ->.
      assert (forall l : list nat, [j] `prefix_of` j :: l) as Hpre
        by (intros l; apply prefix_cons, prefix_nil).
      destruct o as [y|]; cbn [nil_pointer].
      * destruct index as [|i' index']; cbn [walk].
        -- intros x [-> | Hpass]; [|discriminate].
           erewrite field_at_insert_eq by done. exists (Some y).
           split; [done|]. split; [by left | done].
        -- erewrite field_at_insert_eq by done. exists (Some y).
           split; [done|]. split; [done | by left].
      * destruct (walk index elem (zero elem)) as [ft fv put|e]; [intros x _|];
          erewrite field_at_insert_eq by done; eexists (Some _);
          (split; [reflexivity|]); split; eauto.
    + destruct (through fti fvi) as [[t' v']|] eqn:Hthr; [|discriminate].
      destruct (through_field_at fti fvi t' v' (k :: q) Hthr) as [Hpass Hnil];
        [by eexists|].
      rewrite Hnil.
      destruct (through_cases _ _ _ _ Hthr) as [(-> & -> & Hthr') | (x0 & -> & -> & ->)].
      * specialize (IH fti fvi (k :: q) elem o Hq).
        destruct (walk index fti fvi) as [ft fv put|e].
        -- intros x Hx. destruct (IH x Hx) as (o' & Ho' & Hiff).
           exists o'. split.
           ++ erewrite field_at_insert_eq by done. by rewrite Hthr'.
           ++ rewrite Hiff. split; (intros [?|Hp]; [by left | right]).
              ** by apply prefix_cons.
              ** by apply prefix_cons_inv_2 in Hp.
        -- destruct IH as (o' & Ho' & Hmono & Hback).
           exists o'. split; [|split; [done|]].
           ++ erewrite field_at_insert_eq by done. by rewrite Hthr'.
           ++ intros Ho. destruct (Hback Ho) as [?|Hp]; [by left | right].
              by apply prefix_cons.
      * destruct index as [|i' index']; cbn [walk].
        -- intros x [-> | Hp]; [|discriminate].
           erewrite field_at_insert_eq by done. exists o.
           split; [done|]. split; [by left|].
           intros [?|Hp]; [done|].
           apply prefix_cons_inv_2 in Hp. by apply prefix_nil_not in Hp.
        -- erewrite field_at_insert_eq by done. exists o.
           split; [done|]. split; [done | by left].
Qed.

(** A walk that goes through a nil pointer field allocates it and goes on
    from the zero value of what it points to: the field it reaches is the
    one the rest of the path reaches from that zero value, and the pointer
    is left pointing to what the rest of the walk builds there. *)
Lemma walk_through_nil (q : list nat) :
  forall (T : ty) (v : val) (r : list nat) (elem ft : ty) (fv : val) (put : val -> val),
    field_at T v q = Some (TPtr elem, VPtr None) ->
    walk (q ++ r) T v = Reached ft fv put ->
    exists put',
      walk r elem (zero elem) = Reached ft fv put'
      /\ forall x, field_at T (put x) q = Some (TPtr elem, VPtr (Some (put' x))).
Proof.
  induction q as [|j q IH]; intros T v r elem ft fv put Hq Hwalk; [discriminate|].
  destruct T; try (simpl in Hq; discriminate).
  destruct v as [| | | | | | |vs]; try (simpl in Hq; discriminate).
  simpl in Hq. cbn [app walk] in Hwalk.
  destruct (fields !! j) as [[fj ftj]|] eqn:Hfj; [|discriminate].
  destruct (vs !! j) as [fvj|] eqn:Hvj; [|discriminate].
  destruct q as [|k q].
  - injection Hq as -> ->. cbn [nil_pointer app] in Hwalk.
    destruct (walk r elem (zero elem)) as [t' v' put'|]; [|discriminate].
    injection Hwalk as <- <- <-. exists put'. split; [reflexivity|].
    intros x. by erewrite field_at_insert_eq by done.
  - destruct (through ftj fvj) as [[t' v']|] eqn:Hthr; [|discriminate].
    destruct (through_field_at ftj fvj t' v' (k :: q) Hthr) as [Hpass Hnil];
      [by eexists|].
    rewrite Hnil in Hwalk.
    destruct (through_cases _ _ _ _ Hthr) as [(-> & -> & Hthr') | (x0 & -> & -> & ->)].
    + destruct (walk ((k :: q) ++ r) ftj fvj) as [t1 v1 put1|] eqn:Hw; [|discriminate].
      injection Hwalk as <- <- <-.
      destruct (IH ftj fvj r elem t1 v1 put1 Hq Hw) as (put' & Hrest & Hptr).
      exists put'. split; [done|]. intros x.
      erewrite field_at_insert_eq by done. rewrite Hthr'. apply Hptr.
    + discriminate.
Qed.

End Pointers.

Section ReadPointers.
Context `{GoEnv}.

(** A pointer field after the loop, when the loop does not panic: it is
    allocated when it was before, or when the access path in the schema of
    an entry that the loop has taken up goes through it. *)
Lemma entries_loop_pointer (s : ParamStore) (T : ty) (q : list nat) (elem : ty)
  (params : list ssm.Parameter_) :
  forall (v : val) (m : gmap string (list nat)) (o : option val),
    field_at T v q = Some (TPtr elem, VPtr o) ->
    ended (entries_loop s T params v m) <> LoopPanic ->
    exists o',
      field_at T (target (entries_loop s T params v m)) q = Some (TPtr elem, VPtr o')
      /\ (is_Some o'
          <-> is_Some o \/ named_through m q (take (taken (entries_loop s T params v m)) params)).
Proof.
  induction params as [|p params IH]; intros v m o Hq Hend.
  - exists o. split; [done|]. split; [by left|].
    intros [?|(p & index & Hin & _)]; [done|]. simpl in Hin. by apply elem_of_nil in Hin.
  - assert (forall index, q `prefix_of` default [] (m !! ssm.Name p) ->
              m !! ssm.Name p = Some index -> q `prefix_of` index) as Hfound
      by (intros index Hpre Hm; by rewrite Hm in Hpre).
    assert (q `prefix_of` default [] (m !! ssm.Name p) ->
            named_through m q (take 1 (p :: params))) as Hhead.
    { intros Hpre. exists p, (default [] (m !! ssm.Name p)).
      split; [apply list_elem_of_here|]. split; [|done].
      destruct (m !! ssm.Name p); [done|]. simpl in Hpre.
      apply prefix_nil_inv in Hpre as ->. discriminate Hq. }
    cbn [entries_loop] in *.
    pose proof (walk_pointer (default [] (m !! ssm.Name p)) T v q elem o Hq) as Hw.
    destruct (walk (default [] (m !! ssm.Name p)) T v) as [ft fv put|e];
      [|by cbn in Hend].
    destruct (setValue s p ft) as [err|fv'] eqn:Hset; cbn [target taken ended] in *.
    + destruct (Hw fv (or_introl eq_refl)) as (o' & Ho' & Hiff).
      exists o'. split; [done|]. rewrite Hiff.
      split; (intros [?|Hthrough]; [by left | right]); [by apply Hhead|].
      destruct Hthrough as (p0 & index & Hin & Hm & Hpre).
      apply list_elem_of_singleton in Hin as ->. by rewrite Hm.
    + assert (passable ft = false) as Hleaf.
      { destruct (passable ft) eqn:Hpass; [|done].
        rewrite setValue_passable in Hset by done. discriminate Hset. }
      destruct (Hw fv' (or_intror Hleaf)) as (o1 & Ho1 & Hiff1).
      destruct (IH (put fv') (delete (ssm.Name p) m) o1 Ho1 Hend) as (o' & Ho' & Hiff').
      exists o'. split; [done|]. rewrite Hiff', Hiff1. split.
      * intros [[?|Hpre]|(p0 & index & Hin & Hm & Hpre)]; [by left| |].
        -- right. destruct (Hhead Hpre) as (p0 & index & Hin & Hm & Hpre0).
           exists p0, index. split; [|done].
           apply list_elem_of_singleton in Hin as ->. apply list_elem_of_here.
        -- right. exists p0, index. split; [by apply list_elem_of_further|].
           apply lookup_delete_Some in Hm as [_ Hm]. done.
      * intros [?|(p0 & index & Hin & Hm & Hpre)]; [by left; left|].
        destruct (decide (ssm.Name p0 = ssm.Name p)) as [Heq|Hne].
        -- left; right. rewrite Heq in Hm. by rewrite Hm.
        -- right. exists p0, index.
           cbn [take] in Hin. apply elem_of_cons in Hin as [->|Hin]; [done|].
           split; [done|]. split; [|done]. by rewrite lookup_delete_ne.
Qed.

(** Where [Read] returns.  A walk that goes through a nil pointer field
    allocates it in place and goes on from the zero value it points to.
    And when [Read] returns, a pointer field that was nil before the call is
    still nil if and only if no entry that the loop has taken up (the
    returned entries up to the first whose conversion fails, that one
    included) has in the schema an access path that goes through the field;
    otherwise it is allocated. *)
Theorem Read_allocates_pointers (s : ParamStore) (T : ty) (v : val) (client : Client)
  (schema0 : gmap string (list nat)) (params : list ssm.Parameter_)
  (q : list nat) (elem : ty) (target' : val) (err : option error) :
  schema_paths s T = Ok schema0 ->
  cli s = Some client ->
  client {| ssm.Names := map_range 0 schema0; ssm.WithDecryption := true |}
    = inr params ->
  Read s (TPtr T) (VPtr (Some v)) = Returns (VPtr (Some target')) err ->
  field_at T v q = Some (TPtr elem, VPtr None) ->
  let taken_up := take (taken (entries_loop s T params v schema0)) params in
  (forall (v1 : val) (r : list nat) (ft : ty) (fv : val) (put : val -> val),
     field_at T v1 q = Some (TPtr elem, VPtr None) ->
     walk (q ++ r) T v1 = Reached ft fv put ->
     exists put',
       walk r elem (zero elem) = Reached ft fv put'
       /\ forall x, field_at T (put x) q = Some (TPtr elem, VPtr (Some (put' x))))
  /\ exists o' : option val,
       field_at T target' q = Some (TPtr elem, VPtr o')
       /\ (o' = None <-> ~ named_through schema0 q taken_up)
       /\ (is_Some o' <-> named_through schema0 q taken_up).
Proof.
  intros Hschema Hcli Hclient Hread Hq taken_up. split.
  - intros v1 r ft fv put. apply walk_through_nil.
  - rewrite (Read_loop s T v client schema0 params Hschema Hcli Hclient) in Hread.
    cbv zeta in Hread.
    assert (ended (entries_loop s T params v schema0) <> LoopPanic
            /\ target' = target (entries_loop s T params v schema0)) as [Hend ->].
    { destruct (ended (entries_loop s T params v schema0)); [| |discriminate].
      - destruct (0 <? size _)%nat; injection Hread as <- _; by split.
      - injection Hread as <- _. by split. }
    destruct (entries_loop_pointer s T q elem params v schema0 None Hq Hend)
      as (o' & Ho' & Hiff).
    exists o'. split; [done|].
    assert (is_Some o' <-> named_through schema0 q taken_up) as Hiff'.
    { rewrite Hiff. split; [intros [[? [=]]|?]; done | by right]. }
    split; [|done]. rewrite <- Hiff'. split.
    + intros -> [? [=]].
    + intros Hno. destruct o'; [|done]. exfalso. by apply Hno.
Qed.

End ReadPointers.

Section AllocatedPointer.
Context `{GoEnv}.

(** C8, where the code departs from it.  On
    [struct { P *struct { B; Q *struct { A } } }] the schema holds [/p/b]
    at [0 0] and [/p/q/a] at [0 1 0].  With [/p/q/a] alone returned, the walk
    allocates [P] and [Q] on its way and [A] is set.  With [/p/b] and
    [/p/q/a] returned, the walk for [/p/b] allocates [P]; the walk for
    [/p/q/a] then finds [P] allocated and does not follow it
    ([field = field.Elem()] is inside the test for nil), so that
    [Field(1)] is called on the pointer and panics: [Q] stays nil although
    its descendant [/p/q/a] is among the returned entries, none of which
    fails to convert.  In the other order the walk for [/p/b] panics the
    same way. *)
Theorem Read_allocated_pointer_not_followed :
  let b := Sample.stringParam "/p/b" "x" in
  let a := Sample.stringParam "/p/q/a" "y" in
  let s params := Sample.store (Sample.fixedClient params) in
  let Q := TStruct [(Sample.field "A" "a", TString)] in
  let P := TStruct [(Sample.field "B" "b", TString); (Sample.field "Q" "q", TPtr Q)] in
  schema_paths (s [b; a]) Sample.PQ
  = Ok (<["/p/b" := [0; 0]]> (<["/p/q/a" := [0; 1; 0]]> ∅))
  /\ field_at Sample.PQ (zero Sample.PQ) [0] = Some (TPtr P, VPtr None)
  /\ Read (s [a]) (TPtr Sample.PQ) (VPtr (Some (zero Sample.PQ)))
     = Returns
         (VPtr (Some (VStruct [VPtr (Some (VStruct
            [VString EmptyString; VPtr (Some (VStruct [VString "y"]))]))])))
         (Some (NotFoundError ["/p/b"]))
  /\ Read (s [b; a]) (TPtr Sample.PQ) (VPtr (Some (zero Sample.PQ)))
     = Panics (VPtr (Some (VStruct [VPtr (Some (VStruct [VString "x"; VPtr None]))])))
  /\ field_at Sample.PQ
       (VStruct [VPtr (Some (VStruct [VString "x"; VPtr None]))]) [0; 1]
     = Some (TPtr Q, VPtr None)
  /\ Read (s [a; b]) (TPtr Sample.PQ) (VPtr (Some (zero Sample.PQ)))
     = Panics (VPtr (Some (VStruct [VPtr (Some (VStruct
                 [VString EmptyString; VPtr (Some (VStruct [VString "y"]))]))]))).
Proof.
  intros b a s Q P.
  assert (map_range 1 (<["/p/b" := [0; 0]]> ∅ : gmap string (list nat)) = ["/p/b"])
    as Hleft.
  { apply Permutation_singleton_r. rewrite map_range_perm.
    by rewrite insert_empty, map_to_list_singleton. }
  split; [vm_compute; reflexivity|]. split; [reflexivity|].
  split; [|repeat split; vm_compute; reflexivity].
  rewrite (Read_loop (s [a]) Sample.PQ (zero Sample.PQ) (Sample.fixedClient [a])
             (<["/p/b" := [0; 0]]> (<["/p/q/a" := [0; 1; 0]]> ∅)) [a]);
    [|vm_compute; reflexivity|reflexivity|reflexivity].
  cbv zeta.
  assert (entries_loop (s [a]) Sample.PQ [a] (zero Sample.PQ)
            (<["/p/b" := [0; 0]]> (<["/p/q/a" := [0; 1; 0]]> ∅))
          = {| target := VStruct [VPtr (Some (VStruct
                            [VString EmptyString; VPtr (Some (VStruct [VString "y"]))]))];
               remaining := <["/p/b" := [0; 0]]> ∅;
               ended := LoopDone;
               taken := 1 |}) as -> by (vm_compute; reflexivity).
  cbn [ended remaining target]. by rewrite Hleft.
Qed.

End AllocatedPointer.

(** The entries after a conversion error are not taken up: when the
    conversion of [/foo] fails, [Read] stops, and [Ext] stays nil although
    [/ext/a], whose access path goes through it, is among the returned
    entries. *)
Lemma Read_stops_leaves_pointer_nil :
  ~ (forall (E : GoEnv) (s : ParamStore) (T : ty) (v : val) (client : Client)
       (schema0 : gmap string (list nat)) (params : list ssm.Parameter_)
       (q : list nat) (elem : ty) (target' : val) (err : option error),
       schema_paths s T = Ok schema0 ->
       cli s = Some client ->
       client {| ssm.Names := map_range 0 schema0; ssm.WithDecryption := true |}
         = inr params ->
       Read s (TPtr T) (VPtr (Some v)) = Returns (VPtr (Some target')) err ->
       field_at T v q = Some (TPtr elem, VPtr None) ->
       (field_at T target' q = Some (TPtr elem, VPtr None)
        <-> ~ named_through schema0 q params)).
Proof.
  intros Hclaim.
  pose (params := [Sample.stringListParam "/foo" "x"; Sample.stringParam "/ext/a" "y"]).
  destruct (Hclaim Sample.env (Sample.store (Sample.fixedClient params))
              Sample.FooExt (zero Sample.FooExt) (Sample.fixedClient params)
              (<["/foo" := [0]]> (<["/ext/a" := [1; 0]]> ∅)) params
              [1] (TStruct [(Sample.field "A" "a", TString)])
              (zero Sample.FooExt)
              (Some (ErrKey "/foo" (ErrCannotAssign ssm.ParameterTypeStringList TString))))
    as [Hnil _]; try reflexivity.
  apply Hnil; [reflexivity|].
  exists (Sample.stringParam "/ext/a" "y"), [1; 0].
  split; [apply list_elem_of_further, list_elem_of_here|].
  split; [reflexivity|]. by exists [0].
Qed.

(** An instance, at [struct { Foo; Ext *struct { A } }] when the client returns
    [/foo] and [/ext/a]: [Ext], nil before the call, is allocated. *)
Lemma Read_allocates_pointers_FooExt :
  let params := [Sample.stringParam "/foo" "abc"; Sample.stringParam "/ext/a" "y"] in
  let s := Sample.store (Sample.fixedClient params) in
  let schema0 : gmap string (list nat) := <["/foo" := [0]]> (<["/ext/a" := [1; 0]]> ∅) in
  let T := Sample.FooExt in
  let elem := TStruct [(Sample.field "A" "a", TString)] in
  let target' := VStruct [VString "abc"; VPtr (Some (VStruct [VString "y"]))] in
  let taken_up :=
    take (taken (@entries_loop Sample.env s T params (zero T) schema0)) params in
  taken_up = params
  /\ (forall (v1 : val) (r : list nat) (ft : ty) (fv : val) (put : val -> val),
        field_at T v1 [1] = Some (TPtr elem, VPtr None) ->
        walk ([1] ++ r) T v1 = Reached ft fv put ->
        exists put',
          walk r elem (zero elem) = Reached ft fv put'
          /\ forall x, field_at T (put x) [1] = Some (TPtr elem, VPtr (Some (put' x))))
  /\ exists o' : option val,
       field_at T target' [1] = Some (TPtr elem, VPtr o')
       /\ (o' = None <-> ~ named_through schema0 [1] taken_up)
       /\ (is_Some o' <-> named_through schema0 [1] taken_up).
Proof.
  intros params s schema0 T elem target' taken_up. split; [reflexivity|].
  apply (@Read_allocates_pointers Sample.env s T (zero T) (Sample.fixedClient params)
           schema0 params [1] elem target' None).
  - reflexivity.
  - reflexivity.
  - reflexivity.
  - reflexivity.
  - reflexivity.
Defined.

(** ** The key paths of the schema *)

Section SchemaKeys.

(** Induction on types, with the property for every field of a struct. *)
Lemma ty_fields_ind (P : ty -> Prop) :
  P TString -> P TInt -> P TInt8 -> P TInt16 -> P TInt32 -> P TInt64 ->
  P TFloat32 -> P TFloat64 -> P TDuration -> P TTime ->
  (forall k, P (TOther k)) ->
  (forall elem, P elem -> P (TPtr elem)) ->
  (forall elem, P elem -> P (TSlice elem)) ->
  (forall fields, Forall (fun ft => P ft.2) fields -> P (TStruct fields)) ->
  forall t, P t.
Proof.
  intros HString HInt HInt8 HInt16 HInt32 HInt64 HFloat32 HFloat64 HDuration HTime
    HOther HPtr HSlice HStruct.
  fix IH 1. intros [| | | | | | | | | |k|elem|elem|fields];
    [assumption..|apply HOther|apply HPtr, IH|apply HSlice, IH|].
  apply HStruct. induction fields as [|[f t] fields IHfields]; constructor.
  - apply IH.
  - exact IHfields.
Qed.

Lemma join_path_snoc (keyPrefix : string) (ancestors : list string) (name : string) :
  join_path keyPrefix (ancestors ++ [name])
  = String.append (join_path keyPrefix ancestors) (String.append "/" name).
Proof. unfold join_path. by rewrite foldl_app. Qed.

Variable s : ParamStore.

Lemma schema_keys_resolved (T : ty) :
  keys_resolved s T /\ keys_resolved s (match T with TPtr elem => elem | _ => T end).
Proof.
  induction T as [| | | | | | | | | |k|elem IH|elem IH|fields IH] using ty_fields_ind;
    try (split; intros ? ?; discriminate).
  - split; [intros ? ?; discriminate | exact (proj1 IH)].
  - assert (keys_resolved s (TStruct fields)) as Hstruct; [|by split].
    intros ? [= <-] ancestors keyPrefix index h Hexp.
    cbn [schema annotated_leaves annotated_exported] in *.
    revert Hexp.
    match goal with
    | |- ?E fields = true ->
         exists h' m, ?L fields 0 ∅ h = Ok (h', m) /\ forall k, _ <-> k ∈ _ <$> ?O fields =>
        enough (forall fs,
                  Forall (fun ft : StructField * ty =>
                            keys_resolved s ft.2
                            /\ keys_resolved s
                                 (match ft.2 with TPtr elem => elem | _ => ft.2 end)) fs ->
                  forall i m0 h0, E fs = true ->
                  exists h' m,
                    L fs i m0 h0 = Ok (h', m)
                    /\ forall k, is_Some (m !! k)
                                 <-> is_Some (m0 !! k) \/ k ∈ key_path keyPrefix <$> O fs)
          as Hloop
    end.
    { intros Hexp. destruct (Hloop fields IH 0 ∅ h Hexp) as (h' & m & Hm & Hk).
      exists h', m. split; [done|]. intros k. rewrite Hk, lookup_empty.
      split; [intros [[? [=]]|?]; done | by right]. }
    clear. intros fs Hfs.
    induction Hfs as [|[f fty] fs [_ Hfty] _ IHfs]; intros i m0 h0 Hexp.
    + exists h0, m0. split; [reflexivity|]. intros k.
      rewrite fmap_nil, elem_of_nil. tauto.
    + cbn [snd] in Hfty.
      cbn -[schema annotated_leaves annotated_exported Slices.append join_path
            key_path String.append fmap] in Hexp |- *.
      destruct (Lookup (Tag f) (tag s)) as [name|] eqn:Htag.
      2:{ destruct (IHfs (S i) m0 h0 Hexp) as (h' & m & Hm & Hk).
          exists h', m. split; [exact Hm | exact Hk]. }
      apply andb_prop in Hexp as [Hf Hexp]. apply andb_prop in Hf as [Hpkg Hsub].
      rewrite Hpkg. cbn [negb]. rewrite fmap_app.
      rewrite <- join_path_snoc.
      destruct (match fty with TPtr elem => elem | _ => fty end) as
        [| | | | | | | | | |k0|elem0|elem0|fields0] eqn:Hty0.
      14:{ destruct (Slices.append h0 index i) as [h1 index1].
           destruct (Hfty fields0 eq_refl (ancestors ++ [name]) keyPrefix index1 h1 Hsub)
             as (h2 & nested & -> & Hnested).
           destruct (IHfs (S i) (nested ∪ m0) h2 Hexp) as (h' & m & Hm & Hk).
           exists h', m. split; [done|]. intros k.
           rewrite Hk, lookup_union_is_Some, Hnested, elem_of_app. tauto. }
      all: destruct (Slices.append h0 index i) as [h1 index1];
        destruct (IHfs (S i) (<[join_path keyPrefix (ancestors ++ [name]) := index1]> m0)
                    h1 Hexp) as (h' & m & Hm & Hk);
        exists h', m; (split; [done|]); intros k;
        change (key_path keyPrefix <$> [(ancestors, name)])
          with [key_path keyPrefix (ancestors, name)];
        rewrite Hk, lookup_insert_is_Some', elem_of_app, list_elem_of_singleton;
        unfold key_path; cbn [fst snd]; intuition congruence.
Qed.

End SchemaKeys.

(** ** More on [setValue] and the converters *)

Section Converters.
Context `{GoEnv}.

(** A converter reads nothing of the entry but its payload. *)
Lemma convert_Value (conv : Converter) (p p' : ssm.Parameter_) (t : ty) :
  ssm.Value p = ssm.Value p' -> convert conv p t = convert conv p' t.
Proof. intros Hv. unfold convert. by rewrite Hv. Qed.

Lemma run_converters_Value (convs : list Converter) (p p' : ssm.Parameter_) (t : ty) :
  ssm.Value p = ssm.Value p' -> run_converters convs p t = run_converters convs p' t.
Proof.
  intros Hv. induction convs as [|conv convs IH]; simpl; [reflexivity|].
  by rewrite (convert_Value conv p p' t Hv), IH.
Qed.

(** A converter passes exactly on the types it does not handle. *)
Lemma convert_pass (conv : Converter) (p : ssm.Parameter_) (t : ty) :
  convert conv p t = ConvPass <-> handles conv t = false.
Proof.
  destruct conv; simpl.
  - destruct t; try done. by destruct (time_ParseDuration _).
  - destruct t; try done. by destruct (time_Parse _ _).
  - destruct (Kind_of t); try done;
      (destruct (strconv.ParseInt _) || destruct (strconv_ParseFloat _)); done.
Qed.

(** Converters that do not handle the type all pass. *)
Lemma run_converters_pass (convs : list Converter) (p : ssm.Parameter_) (t : ty) :
  Forall (fun conv => handles conv t = false) convs ->
  run_converters convs p t = ConvPass.
Proof.
  induction 1 as [|conv convs Hconv _ IH]; simpl; [reflexivity|].
  apply (convert_pass conv p t) in Hconv. by rewrite Hconv.
Qed.

(** The first converter that handles the type decides. *)
Lemma run_converters_first (pre post : list Converter) (conv : Converter)
  (p : ssm.Parameter_) (t : ty) :
  Forall (fun conv' => handles conv' t = false) pre ->
  handles conv t = true ->
  run_converters (pre ++ conv :: post) p t = convert conv p t.
Proof.
  intros Hpre Hconv. induction Hpre as [|conv' pre Hconv' _ IH]; simpl.
  - destruct (convert conv p t) eqn:Hc; try reflexivity.
    apply convert_pass in Hc. congruence.
  - apply (convert_pass conv' p t) in Hconv'. by rewrite Hconv'.
Qed.

End Converters.

Section SetValueMore.
Context `{GoEnv}.

(** [setValue] once the converters have run. *)
Lemma setValue_unfold (s : ParamStore) (p : ssm.Parameter_) (t : ty) :
  setValue s p t
  = decided (run_converters (converters s) p t)
      match t with
      | TString =>
          match ssm.Type_ p with
          | ssm.ParameterTypeString | ssm.ParameterTypeSecureString =>
              inr (VString (ssm.Value p))
          | _ => inl (ErrCannotAssign (ssm.Type_ p) t)
          end
      | TSlice elem =>
          match ssm.Type_ p with
          | ssm.ParameterTypeStringList =>
              match set_parts (fun sliceParam => setValue s sliceParam elem)
                      (strings.Split1 (ssm.Value p) ",") 0 with
              | inl err => inl err
              | inr slice => inr (VSlice slice)
              end
          | _ => inl (ErrCannotSet (ssm.Type_ p) t)
          end
      | _ => inl (ErrUnsupported (Kind_of t))
      end.
Proof. destruct t; simpl; by destruct (run_converters _ _ _). Qed.

(** Without a converter that handles it, a field that is neither a string
    nor a slice is refused as unsupported by its kind, whatever the entry: numbers,
    durations and times are bound only through the converters. *)
Theorem setValue_unsupported (s : ParamStore) (p : ssm.Parameter_) (t : ty) :
  Forall (fun conv => handles conv t = false) (converters s) ->
  Kind_of t <> String_ ->
  Kind_of t <> Slice ->
  setValue s p t = inl (ErrUnsupported (Kind_of t)).
Proof.
  intros Hconvs Hstr Hslice. rewrite setValue_unfold.
  rewrite (run_converters_pass _ p t Hconvs). simpl.
  destruct t; try reflexivity; done.
Qed.

(** The first converter of the chain that handles the type of the field
    decides, in the order the options were given: the value it sets or its
    error is what [setValue] returns, and neither the converters after it
    nor the kind of the entry play a part. *)
Theorem setValue_first_converter (s : ParamStore) (pre post : list Converter)
  (conv : Converter) (p : ssm.Parameter_) (t : ty) :
  converters s = pre ++ conv :: post ->
  Forall (fun conv' => handles conv' t = false) pre ->
  handles conv t = true ->
  setValue s p t
  = match convert conv p t with
    | ConvErr err => inl err
    | ConvSet v => inr v
    | ConvPass => inl (ErrUnsupported (Kind_of t))
    end
  /\ convert conv p t <> ConvPass.
Proof.
  intros Hconvs Hpre Hconv.
  assert (convert conv p t <> ConvPass) as Hne.
  { intros Hpass. apply convert_pass in Hpass. congruence. }
  split; [|done]. rewrite setValue_unfold, Hconvs.
  rewrite (run_converters_first pre post conv p t Hpre Hconv).
  by destruct (convert conv p t).
Qed.

(** For a field that is neither a string nor a slice, [setValue] looks at
    the payload of the entry alone: entries of any kind with the same
    payload give the same result. *)
Theorem setValue_kind_irrelevant (s : ParamStore) (p p' : ssm.Parameter_) (t : ty) :
  ssm.Value p = ssm.Value p' ->
  Kind_of t <> String_ ->
  Kind_of t <> Slice ->
  setValue s p t = setValue s p' t.
Proof.
  intros Hv Hstr Hslice. rewrite !setValue_unfold.
  rewrite (run_converters_Value _ p p' t Hv).
  destruct t; try reflexivity; done.
Qed.

(** An entry of type [SecureString] is bound as the entry of type [String]
    with the same payload, into a field of any type: the same value when
    one succeeds, an error when the other fails. *)
Theorem setValue_SecureString (s : ParamStore) (name value : string) (t : ty) (v : val) :
  setValue s {| ssm.Name := name; ssm.Type_ := ssm.ParameterTypeSecureString;
                ssm.Value := value |} t = inr v
  <-> setValue s {| ssm.Name := name; ssm.Type_ := ssm.ParameterTypeString;
                    ssm.Value := value |} t = inr v.
Proof.
  rewrite !setValue_unfold.
  rewrite (run_converters_Value (converters s)
             {| ssm.Name := name; ssm.Type_ := ssm.ParameterTypeSecureString;
                ssm.Value := value |}
             {| ssm.Name := name; ssm.Type_ := ssm.ParameterTypeString;
                ssm.Value := value |} t eq_refl).
  destruct (run_converters _ _ t); simpl; try done.
  destruct t; simpl; try done.
Qed.

(** The loop over the parts of a list, told by its result: all parts are
    converted, each at its place, or the loop stops at the first part whose
    conversion fails and reports it with its index. *)
Lemma set_parts_spec (set : ssm.Parameter_ -> error + val) (parts : list string) :
  forall i0 : nat,
    match set_parts set parts i0 with
    | inr xs => Forall2 (fun part x => set (sliceParam part) = inr x) parts xs
    | inl e =>
        exists i part err,
          parts !! i = Some part
          /\ set (sliceParam part) = inl err
          /\ e = ErrSetSliceIndex (i0 + i) err
          /\ forall j part', j < i -> parts !! j = Some part' ->
               exists x, set (sliceParam part') = inr x
    end.
Proof.
  induction parts as [|part parts IH]; intros i0; simpl; [constructor|].
  fold (sliceParam part).
  destruct (set (sliceParam part)) as [err|x] eqn:Hpart.
  - exists 0, part, err. rewrite Nat.add_0_r. repeat split; try done. lia.
  - specialize (IH (S i0)). destruct (set_parts set parts (S i0)) as [e|xs].
    + destruct IH as (i & part' & err & Hi & Herr & -> & Hbefore).
      exists (S i), part', err. repeat split; try done.
      * f_equal. lia.
      * intros [|j] part'' Hj Hpart''; simpl in Hpart''.
        -- injection Hpart'' as <-. by exists x.
        -- apply (Hbefore j); [lia | done].
    + by constructor.
Qed.

(** Binding a list into a slice of any element type: either every part of
    the payload between the commas is converted as an entry of type
    [String], and the slice holds the results in that order; or the error is
    that of the first part that fails, with its index, and the parts before
    it convert. *)
Theorem setValue_slice_parts (s : ParamStore) (name value : string) (elem : ty) :
  let parts := strings.Split1 value "," in
  match setValue s {| ssm.Name := name; ssm.Type_ := ssm.ParameterTypeStringList;
                      ssm.Value := value |} (TSlice elem) with
  | inr v =>
      exists xs, v = VSlice xs
        /\ Forall2 (fun part x => setValue s (sliceParam part) elem = inr x) parts xs
  | inl e =>
      exists i part err,
        parts !! i = Some part
        /\ setValue s (sliceParam part) elem = inl err
        /\ e = ErrSetSliceIndex i err
        /\ forall j part', j < i -> parts !! j = Some part' ->
             exists x, setValue s (sliceParam part') elem = inr x
  end.
Proof.
  intros parts. rewrite setValue_slice_list. fold parts.
  pose proof (set_parts_spec (fun sp => setValue s sp elem) parts 0) as Hspec.
  destruct (set_parts _ parts 0) as [e|xs]; [exact Hspec|].
  by exists xs.
Qed.

End SetValueMore.

(** ** Lists of strings and numbers *)

Section SplitJoin.

Lemma Split1_nonempty (s : string) (c : ascii) : strings.Split1 s c <> [].
Proof.
  destruct s as [|a s]; simpl; [done|].
  destruct (Ascii.eqb a c); [done|]. by destruct (strings.Split1 s c).
Qed.

(** Joining the parts with the separator gives the string back. *)
Lemma Join_Split1 (s : string) (c : ascii) :
  strings.Join (strings.Split1 s c) (String c EmptyString) = s.
Proof.
  induction s as [|a s IH]; [reflexivity|]. cbn [strings.Split1].
  pose proof (Split1_nonempty s c) as Hne.
  destruct (Ascii.eqb a c) eqn:Hac.
  - apply Ascii.eqb_eq in Hac as ->.
    destruct (strings.Split1 s c) as [|part parts]; [done|].
    change (strings.Join (EmptyString :: part :: parts) (String c EmptyString))
      with (String c (strings.Join (part :: parts) (String c EmptyString))).
    by rewrite IH.
  - destruct (strings.Split1 s c) as [|part parts]; [done|].
    rewrite <- IH. by destruct parts.
Qed.

(** There is one part more than there are separators, and no part holds
    one. *)
Lemma Split1_count (s : string) (c : ascii) :
  length (strings.Split1 s c) = S (count_byte c s)
  /\ Forall (fun part => count_byte c part = 0) (strings.Split1 s c).
Proof.
  induction s as [|a s [IHlen IHparts]]; [by repeat constructor|].
  cbn [strings.Split1 count_byte].
  pose proof (Split1_nonempty s c) as Hne.
  destruct (Ascii.eqb a c) eqn:Hac.
  - split; [simpl; by rewrite IHlen | by constructor].
  - destruct (strings.Split1 s c) as [|part parts]; [done|].
    split; [done|]. inversion IHparts; subst. constructor; [|done].
    simpl. by rewrite Hac.
Qed.

End SplitJoin.

Section StringSlices.
Context `{GoEnv}.

Lemma set_parts_strings (s : ParamStore) (parts : list string) :
  forall i, set_parts (fun sp => setValue s sp TString) parts i = inr (VString <$> parts).
Proof.
  induction parts as [|part parts IH]; intros i; simpl; [reflexivity|].
  rewrite run_converters_string. simpl. by rewrite IH.
Qed.

(** Into a slice of strings, a list always binds, whatever the store: the
    elements are the parts of the payload between the commas, in order;
    joined by commas they give the payload back, there is one more of them
    than there are commas, and none holds a comma. *)
Theorem setValue_string_slice (s : ParamStore) (name value : string) :
  let parts := strings.Split1 value "," in
  setValue s {| ssm.Name := name; ssm.Type_ := ssm.ParameterTypeStringList;
                ssm.Value := value |} (TSlice TString)
    = inr (VSlice (VString <$> parts))
  /\ strings.Join parts "," = value
  /\ length parts = S (count_byte "," value)
  /\ Forall (fun part => count_byte "," part = 0) parts.
Proof.
  intros parts. split; [|split; [apply Join_Split1 | apply Split1_count]].
  rewrite setValue_slice_list. fold parts. by rewrite set_parts_strings.
Qed.

End StringSlices.

Section Numbers.
Context `{GoEnv}.

Lemma ParseUint_loop_nonneg (s : string) :
  forall n m : Z, (0 <= n)%Z -> strconv.ParseUint_loop s n = inr m -> (0 <= m)%Z.
Proof.
  induction s as [|c s IH]; intros n m Hn; simpl.
  - by intros [= <-].
  - destruct (_ && _) eqn:Hdigit; [|discriminate].
    apply andb_prop in Hdigit as [Hlo _]. apply Z.leb_le in Hlo.
    destruct (_ <=? n)%Z; [discriminate|].
    destruct (_ <? _)%Z; [discriminate|].
    apply IH. lia.
Qed.

(** [ParseInt] gives a 64-bit integer or an error that names its input. *)
Lemma ParseInt_spec (s : string) :
  match strconv.ParseInt s with
  | inr n => (- 2 ^ 63 <= n < 2 ^ 63)%Z
  | inl nerr => Num nerr = s
  end.
Proof.
  unfold strconv.ParseInt. destruct s as [|c s]; [reflexivity|].
  destruct (if Ascii.eqb c "+" then _ else _) as [neg digits].
  destruct (strconv.ParseUint digits) as [[]|un] eqn:Hun; try reflexivity.
  assert (0 <= un)%Z as Hnonneg.
  { unfold strconv.ParseUint in Hun. destruct digits; [discriminate|].
    by apply (ParseUint_loop_nonneg _ 0 un) in Hun. }
  destruct neg; simpl.
  - destruct (2 ^ 63 <? un)%Z eqn:Hcut; [reflexivity|].
    apply Z.ltb_ge in Hcut. lia.
  - destruct (2 ^ 63 <=? un)%Z eqn:Hcut; [reflexivity|].
    apply Z.leb_gt in Hcut. lia.
Qed.

Lemma truncate_fits (bits x : Z) :
  (0 < bits)%Z -> (- 2 ^ (bits - 1) <= x < 2 ^ (bits - 1))%Z -> truncate bits x = x.
Proof.
  intros Hbits Hx. unfold truncate.
  assert (2 ^ bits = 2 * 2 ^ (bits - 1))%Z as Hpow.
  { rewrite <- Z.pow_succ_r by lia. f_equal. lia. }
  rewrite Z.mod_small by lia. lia.
Qed.

Lemma truncate_range (bits x : Z) :
  (0 < bits)%Z ->
  (- 2 ^ (bits - 1) <= truncate bits x < 2 ^ (bits - 1))%Z
  /\ ((truncate bits x - x) mod 2 ^ bits = 0)%Z.
Proof.
  intros Hbits. unfold truncate.
  assert (2 ^ bits = 2 * 2 ^ (bits - 1))%Z as Hpow.
  { rewrite <- Z.pow_succ_r by lia. f_equal. lia. }
  assert (0 < 2 ^ (bits - 1))%Z as Hpos by (apply Z.pow_pos_nonneg; lia).
  pose proof (Z.mod_pos_bound (x + 2 ^ (bits - 1)) (2 ^ bits) ltac:(lia)) as Hmod.
  split; [lia|].
  replace ((x + 2 ^ (bits - 1)) mod 2 ^ bits - 2 ^ (bits - 1) - x)%Z
    with ((x + 2 ^ (bits - 1)) mod 2 ^ bits - (x + 2 ^ (bits - 1)))%Z by lia.
  rewrite Zminus_mod, Zmod_mod, <- Zminus_mod, Z.sub_diag. apply Zmod_0_l.
Qed.

Lemma int_bits_pos (k : Kind) : (0 < int_bits k)%Z.
Proof. by destruct k. Qed.

(** With the number converter first among the converters that handle an
    integer field, the payload is parsed as a decimal 64-bit integer.  When
    it parses, the field is set to the number itself if the number fits the
    width of the field (always, for [int] and [int64]), and otherwise to the
    number of that width with the same low bits.  When it does not parse,
    the error carries the whole payload and the cause, whatever the kind of
    the entry. *)
Theorem setValue_ParseNumber_int (s : ParamStore) (pre post : list Converter)
  (p : ssm.Parameter_) (t : ty) :
  converters s = pre ++ ParseNumber :: post ->
  Forall (fun conv => handles conv t = false) pre ->
  int_kind (Kind_of t) = true ->
  let bits := int_bits (Kind_of t) in
  match strconv.ParseInt (ssm.Value p) with
  | inr n =>
      exists stored : Z,
        setValue s p t = inr (VInt stored)
        /\ (- 2 ^ (bits - 1) <= stored < 2 ^ (bits - 1))%Z
        /\ ((stored - n) mod 2 ^ bits = 0)%Z
        /\ ((- 2 ^ (bits - 1) <= n < 2 ^ (bits - 1))%Z -> stored = n)
        /\ (bits = 64%Z -> stored = n)
  | inl nerr =>
      setValue s p t = inl (ErrParseInt (ssm.Value p) (Err nerr))
  end.
Proof.
  intros Hconvs Hpre Hint bits.
  assert (handles ParseNumber t = true) as Hnum.
  { simpl. by destruct (Kind_of t). }
  pose proof (run_converters_first pre post ParseNumber p t Hpre Hnum) as Hrun.
  rewrite <- Hconvs in Hrun.
  assert (convert ParseNumber p t
          = match strconv.ParseInt (ssm.Value p) with
            | inl nerr => ConvErr (ErrParseInt (Num nerr) (Err nerr))
            | inr num => ConvSet (SetInt (Kind_of t) num)
            end) as Hconv.
  { simpl. by destruct (Kind_of t). }
  pose proof (ParseInt_spec (ssm.Value p)) as Hparse.
  rewrite setValue_unfold, Hrun, Hconv.
  destruct (strconv.ParseInt (ssm.Value p)) as [nerr|n]; simpl.
  - by rewrite Hparse.
  - exists (truncate bits n).
    pose proof (truncate_range bits n (int_bits_pos _)) as [Hrange Hmod].
    split; [reflexivity|]. split; [done|]. split; [done|]. split.
    + apply truncate_fits, int_bits_pos.
    + intros Hbits. apply truncate_fits; [apply int_bits_pos|].
      rewrite Hbits. simpl. lia.
Qed.

End Numbers.

(** ** More on [Read] *)

Section ReadOutcomes.
Context `{GoEnv}.

(** The loop fails with the error of a conversion under the key path of its
    entry, and with no other. *)
Lemma entries_loop_error (s : ParamStore) (T : ty) (params : list ssm.Parameter_) :
  forall (v : val) (m : gmap string (list nat)) (e : error),
    ended (entries_loop s T params v m) = LoopError e ->
    exists p cause, p ∈ params /\ e = ErrKey (ssm.Name p) cause.
Proof.
  induction params as [|p params IH]; intros v m e; simpl; [discriminate|].
  destruct (walk _ T v) as [ft fv put|]; [|discriminate].
  destruct (setValue s p ft) as [err|fv']; simpl.
  - intros [= <-]. exists p, err. split; [left | reflexivity].
  - intros Hend. destruct (IH _ _ _ Hend) as (p' & cause & Hin & ->).
    exists p', cause. split; [by right | reflexivity].
Qed.

(** [schema] fails with the error of an unexported field, and with no
    other. *)
Lemma schema_error_deref (s : ParamStore) (T : ty) :
  let fails_exported T :=
    forall (keyPrefix : string) (index : Slices.slice) (h : Slices.store) (e : error),
      schema s T keyPrefix index h = Fail e -> exists name, e = ErrMustBeExported name in
  fails_exported T /\ fails_exported (match T with TPtr elem => elem | _ => T end).
Proof.
  intros fails_exported.
  induction T as [| | | | | | | | | |k|elem IH|elem IH|fields IH] using ty_fields_ind;
    try (split; intros ? ? ? ?; discriminate).
  - split; [intros ? ? ? ?; discriminate | exact (proj1 IH)].
  - assert (fails_exported (TStruct fields)) as Hstruct; [|by split].
    intros keyPrefix index h e. cbn [schema].
    match goal with
    | |- ?L fields 0 ∅ h = Fail e -> _ =>
        enough (forall fs,
                  Forall (fun ft : StructField * ty =>
                            fails_exported ft.2
                            /\ fails_exported
                                 (match ft.2 with TPtr elem => elem | _ => ft.2 end)) fs ->
                  forall i m0 h0, L fs i m0 h0 = Fail e ->
                                  exists name, e = ErrMustBeExported name) as Hloop
    end.
    { apply Hloop, IH. }
    clear. intros fs Hfs.
    induction Hfs as [|[f fty] fs [_ Hfty] _ IHfs]; intros i m0 h0; [discriminate|].
    cbn -[schema Slices.append String.append].
    destruct (Lookup (Tag f) (tag s)) as [name|]; [|apply IHfs].
    destruct (negb _); [intros [= <-]; by eexists|].
    cbn [snd] in Hfty.
    destruct (match fty with TPtr elem => elem | _ => fty end) eqn:Hty0;
      destruct (Slices.append h0 index i) as [h1 index1]; try apply IHfs.
    match goal with
    | |- context [schema s ?t ?kp index1 h1] =>
        destruct (schema s t kp index1 h1) as [[h2 nested]|e'|] eqn:Hnested
    end; [apply IHfs | | discriminate].
    intros [= <-]. eapply Hfty. eassumption.
Qed.

Lemma schema_paths_error (s : ParamStore) (T : ty) (e : error) :
  schema_paths s T = Fail e -> exists name, e = ErrMustBeExported name.
Proof.
  unfold schema_paths.
  destruct (schema s T (prefix s) Slices.nil_slice []) as [[h m]|e'|] eqn:Hschema;
    try discriminate.
  intros [= <-]. eapply (proj1 (schema_error_deref s T)). eassumption.
Qed.

(** When [Read] returns an error that is neither that of a conversion
    under a key path nor a [NotFoundError], it has not touched the target:
    the target is no pointer, a nil pointer or no pointer to a struct, an
    annotated field is not exported, or the client has failed. *)
Theorem Read_error_untouched (s : ParamStore) (t : ty) (v v' : val) (e : error) :
  Read s t v = Returns v' (Some e) ->
  (forall name cause, e <> ErrKey name cause) ->
  (forall names, e <> NotFoundError names) ->
  v' = v
  /\ (e = ErrNotPointer \/ e = ErrNilPointer \/ e = ErrNotStruct
      \/ (exists name, e = ErrMustBeExported name)
      \/ (exists cause, e = ErrReadSSM cause)).
Proof.
  intros Hread Hkey Hnotfound. unfold Read in Hread.
  destruct t; try (injection Hread as <- <-; split; [done | by left]).
  destruct v as [| | | | |[val0|]| |]; try discriminate;
    [|injection Hread as <- <-; split; [done | by right; left]].
  destruct (Kind_of t);
    try (injection Hread as <- <-; split; [done | by right; right; left]).
  destruct (schema_paths s t) as [schema0|e'|] eqn:Hschema; [| |discriminate].
  2:{ injection Hread as <- <-. split; [done|]. right; right; right; left.
      by apply schema_paths_error in Hschema. }
  destruct (cli s) as [client|]; [|discriminate].
  destruct (client _) as [cause|params];
    [injection Hread as <- <-; split; [done|]; right; right; right; right; by eexists|].
  cbv zeta in Hread.
  destruct (ended (entries_loop s t params val0 schema0)) eqn:Hend; [| |discriminate].
  - destruct (0 <? size _)%nat; [|discriminate].
    injection Hread as _ <-. by destruct (Hnotfound _ eq_refl).
  - injection Hread as _ <-.
    destruct (entries_loop_error _ _ _ _ _ _ Hend) as (p & cause & _ & ->).
    by destruct (Hkey _ _ eq_refl).
Qed.

(** The names a [range] over the remaining schema gives. *)
Lemma map_range_keys (site : nat) (m : gmap string (list nat)) :
  NoDup (map_range site m) /\ forall k, k ∈ map_range site m <-> is_Some (m !! k).
Proof.
  split.
  - rewrite (map_range_perm site m). apply NoDup_fst_map_to_list.
  - intros k. rewrite (map_range_perm site m), list_elem_of_fmap. split.
    + intros [[k' idx] [-> Hin]]. apply elem_of_map_to_list in Hin. by exists idx.
    + intros [idx Hk]. exists (k, idx). split; [done|]. by apply elem_of_map_to_list.
Qed.

(** Once the schema is resolved and the client has answered, [Read] returns
    without an error exactly when the loop gets through all the returned
    entries and every key path of the schema is the name of one of them; the
    target it returns is then the one the loop leaves. *)
Theorem Read_nil_iff (s : ParamStore) (T : ty) (v : val) (client : Client)
  (schema0 : gmap string (list nat)) (params : list ssm.Parameter_) :
  schema_paths s T = Ok schema0 ->
  cli s = Some client ->
  client {| ssm.Names := map_range 0 schema0; ssm.WithDecryption := true |}
    = inr params ->
  let st := entries_loop s T params v schema0 in
  ((exists v', Read s (TPtr T) (VPtr (Some v)) = Returns v' None)
   <-> ended st = LoopDone
       /\ forall k, is_Some (schema0 !! k) -> k ∈ ssm.Name <$> params)
  /\ forall v', Read s (TPtr T) (VPtr (Some v)) = Returns v' None ->
               v' = VPtr (Some (target st)).
Proof.
  intros Hschema Hcli Hclient st.
  rewrite (Read_loop s T v client schema0 params Hschema Hcli Hclient).
  cbv zeta. fold st.
  destruct (ended st) eqn:Hend.
  - pose proof (entries_loop_remaining s T params v schema0 Hend) as Hrem. fold st in Hrem.
    destruct (0 <? size (remaining st))%nat eqn:Hsize.
    + split; [|discriminate]. split; [by intros [? ?]|]. intros [_ Hall].
      apply Nat.ltb_lt in Hsize.
      assert (remaining st = ∅) as Hempty; [|rewrite Hempty, map_size_empty in Hsize; lia].
      apply map_eq. intros k. rewrite lookup_empty, Hrem.
      case_decide as Hk; [done|].
      destruct (schema0 !! k) eqn:Hlook; [|done]. destruct Hk. apply Hall. by eexists.
    + split; [|by intros ? [= <-]]. split; [|by eexists]. intros _. split; [done|].
      intros k [idx Hk]. apply Nat.ltb_ge in Hsize.
      assert (remaining st = ∅) as Hempty by (apply map_size_empty_iff; lia).
      specialize (Hrem k). rewrite Hempty, lookup_empty in Hrem.
      case_decide; [done | congruence].
  - split; [|discriminate]. split; [by intros [? ?] | by intros [? _]].
  - split; [|discriminate]. split; [by intros [? ?] | by intros [? _]].
Qed.

(** Once the schema is resolved and the client has answered, a
    [NotFoundError] comes only after the loop has got through all the
    returned entries; its list of names is not empty, has no name twice,
    and holds the key paths of the schema that no entry has named, and no
    other name. *)
Theorem Read_NotFoundError_sound (s : ParamStore) (T : ty) (v v' : val)
  (client : Client) (schema0 : gmap string (list nat))
  (params : list ssm.Parameter_) (names : list string) :
  schema_paths s T = Ok schema0 ->
  cli s = Some client ->
  client {| ssm.Names := map_range 0 schema0; ssm.WithDecryption := true |}
    = inr params ->
  Read s (TPtr T) (VPtr (Some v)) = Returns v' (Some (NotFoundError names)) ->
  let st := entries_loop s T params v schema0 in
  ended st = LoopDone
  /\ v' = VPtr (Some (target st))
  /\ names <> []
  /\ NoDup names
  /\ forall k, k ∈ names <-> is_Some (schema0 !! k) /\ k ∉ ssm.Name <$> params.
Proof.
  intros Hschema Hcli Hclient Hread st.
  rewrite (Read_loop s T v client schema0 params Hschema Hcli Hclient) in Hread.
  cbv zeta in Hread. fold st in Hread.
  destruct (ended st) eqn:Hend; [| |discriminate].
  2:{ injection Hread as _ ->.
      destruct (entries_loop_error _ _ _ _ _ _ Hend) as (? & ? & _ & [=]). }
  pose proof (entries_loop_remaining s T params v schema0 Hend) as Hrem. fold st in Hrem.
  destruct (0 <? size (remaining st))%nat eqn:Hsize; [|discriminate].
  injection Hread as <- <-.
  destruct (map_range_keys 1 (remaining st)) as [Hnodup Hkeys].
  split; [done|]. split; [done|]. split; [|split; [done|]].
  - intros Hnil. apply Nat.ltb_lt in Hsize.
    assert (remaining st = ∅) as Hempty; [|rewrite Hempty, map_size_empty in Hsize; lia].
    apply map_eq. intros k. rewrite lookup_empty.
    destruct (remaining st !! k) eqn:Hk; [|done].
    assert (k ∈ map_range 1 (remaining st)) as Hin by (apply Hkeys; by eexists).
    rewrite Hnil in Hin. by apply elem_of_nil in Hin.
  - intros k. rewrite Hkeys, Hrem. case_decide as Hk.
    + split; [by intros [? ?] | by intros [_ ?]].
    + split; [by intros ? | by intros [? _]].
Qed.

End ReadOutcomes.

(** ** What [Read] leaves in the fields *)

Section Binding.

(** A walk that goes on reaches a struct. *)
Lemma walk_cons_struct (i : nat) (index : list nat) (T : ty) (v : val)
  (ft : ty) (fv : val) (put : val -> val) :
  walk (i :: index) T v = Reached ft fv put ->
  exists fields vs, T = TStruct fields /\ v = VStruct vs.
Proof.
  destruct T; try discriminate. destruct v; try discriminate. by eexists _, _.
Qed.

Lemma through_leaf (t : ty) (x : val) :
  (forall elem, t <> TPtr elem) -> through t x = Some (t, x).
Proof. intros Hptr. destruct t; try reflexivity. by destruct (Hptr t). Qed.

(** What is put at the end of a walk is found at the end of its access
    path, when the field reached is neither a struct nor a pointer. *)
Lemma walk_put_found (index : list nat) :
  forall (T : ty) (v : val) (ft : ty) (fv : val) (put : val -> val),
    index <> [] ->
    walk index T v = Reached ft fv put ->
    passable ft = false ->
    forall x, value_at T (put x) index = Some (ft, x).
Proof.
  induction index as [|i index IH]; intros T v ft fv put Hne Hwalk Hleaf x; [done|].
  destruct (walk_cons_struct _ _ _ _ _ _ _ Hwalk) as (fields & vs & -> & ->).
  cbn [walk] in Hwalk.
  destruct (fields !! i) as [[f ft0]|] eqn:Hf; [|discriminate].
  destruct (vs !! i) as [fv0|] eqn:Hv; [|discriminate].
  unfold value_at.
  destruct (nil_pointer ft0 fv0) as [elem|] eqn:Hnil.
  - apply nil_pointer_Some in Hnil as [-> ->].
    destruct (walk index elem (zero elem)) as [t' v' put'|] eqn:Hw; [|discriminate].
    injection Hwalk as -> -> <-.
    erewrite field_at_insert_eq by done.
    destruct index as [|j index].
    + injection Hw as <- <- <-. reflexivity.
    + cbn [through]. by apply (IH elem (zero elem) ft fv put').
  - destruct (walk index ft0 fv0) as [t' v' put'|] eqn:Hw; [|discriminate].
    injection Hwalk as -> -> <-.
    erewrite field_at_insert_eq by done.
    destruct index as [|j index].
    + injection Hw as <- <- <-. apply through_leaf.
      intros elem ->. discriminate Hleaf.
    + destruct (walk_cons_struct _ _ _ _ _ _ _ Hw) as (fields0 & vs0 & -> & ->).
      cbn [through]. by apply (IH (TStruct fields0) (VStruct vs0) ft fv put').
Qed.

(** A walk leaves alone what is found at the end of an access path that is
    apart from its own. *)
Lemma walk_keeps_apart (index : list nat) :
  forall (T : ty) (v : val) (q : list nat) (ft : ty) (fv : val) (put : val -> val)
         (r : ty * val),
    walk index T v = Reached ft fv put ->
    apart q index ->
    value_at T v q = Some r ->
    forall x, value_at T (put x) q = Some r.
Proof.
  induction index as [|i index IH]; intros T v q ft fv put r Hwalk [Hqi Hiq] Hq x.
  - destruct Hiq. apply prefix_nil.
  - destruct q as [|j q]; [destruct Hqi; apply prefix_nil|].
    destruct (walk_cons_struct _ _ _ _ _ _ _ Hwalk) as (fields & vs & -> & ->).
    cbn [walk] in Hwalk.
    destruct (fields !! i) as [[f ft0]|] eqn:Hf; [|discriminate].
    destruct (vs !! i) as [fv0|] eqn:Hv; [|discriminate].
    unfold value_at in *.
    destruct (decide (i = j)) as [<-|Hne].
    2:{ destruct (nil_pointer ft0 fv0);
          match goal with H : context [walk index ?t ?v] |- _ =>
            destruct (walk index t v); [|discriminate] end;
          injection Hwalk as _ _ <-; by rewrite field_at_insert_ne. }
    destruct q as [|k q]; [destruct Hqi; apply prefix_cons, prefix_nil|].
    destruct index as [|i' index]; [destruct Hiq; apply prefix_cons, prefix_nil|].
    assert (apart (k :: q) (i' :: index)) as Hapart.
    { split; intros Hp; [apply Hqi | apply Hiq]; by apply prefix_cons. }
    simpl in Hq. rewrite Hf, Hv in Hq.
    destruct (nil_pointer ft0 fv0) as [elem|] eqn:Hnil.
    { by rewrite (through_nil_pointer _ _ _ Hnil) in Hq. }
    destruct (walk (i' :: index) ft0 fv0) as [t' v' put'|] eqn:Hw; [|discriminate].
    injection Hwalk as _ _ <-.
    destruct (walk_cons_struct _ _ _ _ _ _ _ Hw) as (fields0 & vs0 & -> & ->).
    erewrite field_at_insert_eq by done. cbn [through] in *.
    apply (IH (TStruct fields0) (VStruct vs0) (k :: q) t' v' put' r Hw Hapart Hq).
Qed.

End Binding.

Section ReadBinds.
Context `{GoEnv}.

(** One turn of the loop that goes on: the walk has reached a field that
    is neither a struct nor a pointer, and the entry has converted. *)
Lemma entries_loop_cons_done (s : ParamStore) (T : ty) (p : ssm.Parameter_)
  (params : list ssm.Parameter_) (v : val) (m : gmap string (list nat)) :
  ended (entries_loop s T (p :: params) v m) = LoopDone ->
  exists ft fv put x,
    walk (default [] (m !! ssm.Name p)) T v = Reached ft fv put
    /\ setValue s p ft = inr x
    /\ passable ft = false
    /\ ended (entries_loop s T params (put x) (delete (ssm.Name p) m)) = LoopDone
    /\ target (entries_loop s T (p :: params) v m)
       = target (entries_loop s T params (put x) (delete (ssm.Name p) m)).
Proof.
  cbn [entries_loop].
  destruct (walk _ T v) as [ft fv put|]; [|discriminate].
  destruct (setValue s p ft) as [err|x] eqn:Hset; [discriminate|].
  cbn [ended target]. intros Hend. exists ft, fv, put, x.
  repeat split; try done.
  destruct (passable ft) eqn:Hpass; [|done].
  rewrite setValue_passable in Hset by done. discriminate Hset.
Qed.

(** The turns of the loop for entries whose access paths are apart from
    [q] leave alone what is found at [q]. *)
Lemma entries_loop_keeps (s : ParamStore) (fields : list (StructField * ty))
  (q : list nat) (r : ty * val) (params : list ssm.Parameter_) :
  forall (v : val) (m : gmap string (list nat)),
    ended (entries_loop s (TStruct fields) params v m) = LoopDone ->
    value_at (TStruct fields) v q = Some r ->
    (forall p' index', p' ∈ params -> m !! ssm.Name p' = Some index' -> apart q index') ->
    value_at (TStruct fields) (target (entries_loop s (TStruct fields) params v m)) q
    = Some r.
Proof.
  induction params as [|p params IH]; intros v m Hend Hq Hapart; [done|].
  destruct (entries_loop_cons_done _ _ _ _ _ _ Hend)
    as (ft & fv & put & x & Hwalk & Hset & Hleaf & Hrest & ->).
  apply IH; [done| |].
  - destruct (m !! ssm.Name p) as [index|] eqn:Hm.
    + apply (walk_keeps_apart index _ v q ft fv put r Hwalk); [|done].
      apply (Hapart p); [left | done].
    + injection Hwalk as <- _ _. discriminate Hleaf.
  - intros p' index' Hin Hm. apply lookup_delete_Some in Hm as [_ Hm].
    apply (Hapart p'); [by right | done].
Qed.

(** After a loop that gets through all the entries, the field at the end of
    the access path of an entry holds the value the entry converts to. *)
Lemma entries_loop_binds (s : ParamStore) (fields : list (StructField * ty))
  (p : ssm.Parameter_) (index : list nat) (params : list ssm.Parameter_) :
  forall (v : val) (m : gmap string (list nat)),
    ended (entries_loop s (TStruct fields) params v m) = LoopDone ->
    p ∈ params ->
    NoDup (ssm.Name <$> params) ->
    m !! ssm.Name p = Some index ->
    (forall p' index', p' ∈ params -> p' <> p ->
       m !! ssm.Name p' = Some index' -> apart index index') ->
    exists ft x,
      setValue s p ft = inr x
      /\ value_at (TStruct fields) (target (entries_loop s (TStruct fields) params v m))
           index = Some (ft, x).
Proof.
  induction params as [|p0 params IH]; intros v m Hend Hin Hnodup Hm Hapart.
  { by apply elem_of_nil in Hin. }
  destruct (entries_loop_cons_done _ _ _ _ _ _ Hend)
    as (ft & fv & put & x & Hwalk & Hset & Hleaf & Hrest & ->).
  rewrite fmap_cons in Hnodup. apply NoDup_cons in Hnodup as [Hfresh Hnodup].
  assert (forall p', p' ∈ params -> ssm.Name p' <> ssm.Name p0) as Hnames.
  { intros p' Hp' Heq. apply Hfresh. rewrite <- Heq. by apply list_elem_of_fmap_2. }
  apply elem_of_cons in Hin as [->|Hin].
  - rewrite Hm in Hwalk. cbn [default] in Hwalk.
    exists ft, x. split; [done|].
    apply entries_loop_keeps; [done| |].
    + apply (walk_put_found index _ v ft fv put); [|done..].
      intros ->. injection Hwalk as <- _ _. discriminate Hleaf.
    + intros p' index' Hp' Hm'. apply lookup_delete_Some in Hm' as [_ Hm'].
      apply (Hapart p'); [by right| |done].
      intros ->. by apply (Hnames p0).
  - apply IH; [done..| |].
    + rewrite lookup_delete_ne; [done|]. intros Heq. by apply (Hnames p).
    + intros p' index' Hp' Hne Hm'. apply lookup_delete_Some in Hm' as [_ Hm'].
      apply (Hapart p'); [by right | done..].
Qed.

(** When [Read] gets through all the returned entries, no two of which have
    the same name, the field at the end of the access path that the schema
    holds for an entry holds the value that the entry converts to by
    [setValue], provided that the access paths of the other entries are
    apart from it (none leads through the end of the other): later entries
    do not disturb it. *)
Theorem Read_binds (s : ParamStore) (T : ty) (v : val) (client : Client)
  (schema0 : gmap string (list nat)) (params : list ssm.Parameter_)
  (p : ssm.Parameter_) (index : list nat) :
  schema_paths s T = Ok schema0 ->
  cli s = Some client ->
  client {| ssm.Names := map_range 0 schema0; ssm.WithDecryption := true |}
    = inr params ->
  ended (entries_loop s T params v schema0) = LoopDone ->
  p ∈ params ->
  NoDup (ssm.Name <$> params) ->
  schema0 !! ssm.Name p = Some index ->
  (forall p' index', p' ∈ params -> p' <> p ->
     schema0 !! ssm.Name p' = Some index' -> apart index index') ->
  exists v' err ft x,
    Read s (TPtr T) (VPtr (Some v)) = Returns (VPtr (Some v')) err
    /\ setValue s p ft = inr x
    /\ value_at T v' index = Some (ft, x).
Proof.
  intros Hschema Hcli Hclient Hend Hin Hnodup Hm Hapart.
  assert (exists fields, T = TStruct fields) as [fields ->].
  { unfold schema_paths in Hschema. destruct T; try discriminate; [|by eexists].
    injection Hschema as <-. by rewrite fmap_empty, lookup_empty in Hm. }
  destruct (entries_loop_binds s fields p index params v schema0
              Hend Hin Hnodup Hm Hapart) as (ft & x & Hset & Hvalue).
  rewrite (Read_loop s _ v client schema0 params Hschema Hcli Hclient).
  cbv zeta. rewrite Hend.
  destruct (0 <? size _)%nat; by eexists _, _, ft, x.
Qed.

End ReadBinds.

(** ** More on [schema] *)

Section SchemaExported.
Variable s : ParamStore.

(** [schema] stops at the first annotated field that is not exported. *)
Lemma schema_unexported_deref (T : ty) :
  let fails T :=
    forall fields, T = TStruct fields ->
    forall (keyPrefix : string) (index : Slices.slice) (h : Slices.store),
      annotated_exported (tag s) T = false ->
      exists name, schema s T keyPrefix index h = Fail (ErrMustBeExported name) in
  fails T /\ fails (match T with TPtr elem => elem | _ => T end).
Proof.
  intros fails.
  induction T as [| | | | | | | | | |k|elem IH|elem IH|fields IH] using ty_fields_ind;
    try (split; intros ? ?; discriminate).
  - split; [intros ? ?; discriminate | exact (proj1 IH)].
  - assert (fails (TStruct fields)) as Hstruct; [|by split].
    intros ? [= <-] keyPrefix index h.
    cbn [schema annotated_exported].
    match goal with
    | |- ?E fields = false -> exists name, ?L fields 0 ∅ h = _ =>
        enough (forall fs,
                  Forall (fun ft : StructField * ty =>
                            fails ft.2
                            /\ fails (match ft.2 with TPtr elem => elem | _ => ft.2 end)) fs ->
                  forall i m0 h0, E fs = false ->
                                  exists name, L fs i m0 h0 = Fail (ErrMustBeExported name))
          as Hloop
    end.
    { apply Hloop, IH. }
    clear. intros fs Hfs.
    induction Hfs as [|[f fty] fs [_ Hfty] _ IHfs]; intros i m0 h0; [discriminate|].
    cbn -[schema annotated_exported Slices.append String.append].
    destruct (Lookup (Tag f) (tag s)) as [name|]; [|apply IHfs].
    destruct (String.eqb (PkgPath f) EmptyString); cbn [negb andb]; [|by eexists].
    cbn [snd] in Hfty.
    destruct (match fty with TPtr elem => elem | _ => fty end) as
      [| | | | | | | | | |k0|elem0|elem0|fields0] eqn:Hty0;
      destruct (Slices.append h0 index i) as [h1 index1]; try apply IHfs.
    destruct (annotated_exported (tag s) (TStruct fields0)) eqn:Hsub.
    + destruct (proj1 (schema_keys_resolved s (TStruct fields0)) fields0 eq_refl
                  [] (String.append keyPrefix (String.append "/" name)) index1 h1 Hsub)
        as (h2 & nested & Hnested & _).
      change (join_path (String.append keyPrefix (String.append "/" name)) [])
        with (String.append keyPrefix (String.append "/" name)) in Hnested.
      rewrite Hnested. apply IHfs.
    + intros _.
      destruct (Hfty fields0 eq_refl (String.append keyPrefix (String.append "/" name))
                  index1 h1 Hsub) as [name' ->].
      by eexists.
Qed.

(** The key paths, whatever the arrays behind the access paths: when
    [schema] returns a map for a struct type, the key paths of the map are
    those of the annotated leaf fields of the type, each the prefix followed
    by the annotations of the ancestors and of the leaf after a slash each;
    when no two leaves have the same key path, there are as many key paths
    as leaves. *)
Theorem schema_key_paths (fields : list (StructField * ty))
  (m : gmap string (list nat)) :
  schema_paths s (TStruct fields) = Ok m ->
  (forall k, is_Some (m !! k)
             <-> k ∈ key_path (prefix s) <$> annotated_leaves (tag s) (TStruct fields) [])
  /\ (NoDup (key_path (prefix s) <$> annotated_leaves (tag s) (TStruct fields) []) ->
      size m = length (annotated_leaves (tag s) (TStruct fields) [])).
Proof.
  intros Hschema. unfold schema_paths in Hschema.
  destruct (annotated_exported (tag s) (TStruct fields)) eqn:Hexp.
  2:{ destruct (proj1 (schema_unexported_deref (TStruct fields)) fields eq_refl
                  (prefix s) Slices.nil_slice [] Hexp) as [name Hfail].
      rewrite Hfail in Hschema. discriminate. }
  destruct (proj1 (schema_keys_resolved s (TStruct fields)) fields eq_refl []
              (prefix s) Slices.nil_slice [] Hexp) as (h' & m' & Hm' & Hk).
  change (join_path (prefix s) []) with (prefix s) in Hm'.
  rewrite Hm' in Hschema. injection Hschema as <-.
  assert (forall k, is_Some ((Slices.elems h' <$> m') !! k)
                    <-> k ∈ key_path (prefix s) <$>
                          annotated_leaves (tag s) (TStruct fields) []) as Hkeys.
  { intros k. rewrite lookup_fmap, fmap_is_Some. apply Hk. }
  split; [done|]. intros Hnodup.
  assert (dom (Slices.elems h' <$> m')
          = (list_to_set (key_path (prefix s) <$>
                            annotated_leaves (tag s) (TStruct fields) []) : gset string))
    as Hdom.
  { apply set_eq. intros k. rewrite elem_of_dom, elem_of_list_to_set. apply Hkeys. }
  rewrite <- size_dom, Hdom, size_list_to_set by done. apply length_fmap.
Qed.

Lemma annotated_in_among (tagname : string) (fields : list (StructField * ty))
  (g : StructField) :
  annotated_in tagname (TStruct fields) g <-> annotated_among tagname fields g.
Proof.
  split.
  - inversion 1 as [fs f fty name Hin Htag | fs f fty name fields' g' Hin Htag Hty Hg];
      subst.
    + exists g, fty, name. split; [done|]. split; [done|]. by left.
    + exists f, fty, name. split; [done|]. split; [done|]. right. by exists fields'.
  - intros (f & fty & name & Hin & Htag & [-> | (fields' & Hty & Hg)]).
    + by eapply annotated_here.
    + by eapply annotated_under.
Qed.

Lemma annotated_among_tail (tagname : string) (x : StructField * ty)
  (fs : list (StructField * ty)) (g : StructField) :
  annotated_among tagname fs g -> annotated_among tagname (x :: fs) g.
Proof.
  intros (f & fty & name & Hin & Hrest). exists f, fty, name.
  split; [by apply list_elem_of_further | done].
Qed.

Lemma annotated_among_cons (tagname : string) (f : StructField) (fty : ty)
  (fs : list (StructField * ty)) (g : StructField) :
  annotated_among tagname ((f, fty) :: fs) g ->
  (is_Some (Lookup (Tag f) tagname)
   /\ (g = f
       \/ exists fields',
            match fty with TPtr elem => elem | _ => fty end = TStruct fields'
            /\ annotated_in tagname (TStruct fields') g))
  \/ annotated_among tagname fs g.
Proof.
  intros (f' & fty' & name & Hin & Htag & Hg).
  apply elem_of_cons in Hin as [[= -> ->] | Hin].
  - left. split; [by exists name | done].
  - right. by exists f', fty', name.
Qed.

(** What [schema] returns on a struct type, by the annotated fields it can
    meet. *)
Lemma schema_exported_deref (T : ty) :
  let holds T :=
    forall fields, T = TStruct fields ->
    forall (keyPrefix : string) (index : Slices.slice) (h : Slices.store),
      exported_result (annotated_in (tag s) T) (schema s T keyPrefix index h) in
  holds T /\ holds (match T with TPtr elem => elem | _ => T end).
Proof.
  intros holds.
  induction T as [| | | | | | | | | |k|elem IH|elem IH|fields IH] using ty_fields_ind;
    try (split; intros ? ?; discriminate).
  - split; [intros ? ?; discriminate | exact (proj1 IH)].
  - assert (holds (TStruct fields)) as Hstruct; [|by split].
    intros ? [= <-] keyPrefix index h.
    assert (forall r : result (Slices.store * gmap string Slices.slice),
              exported_result (annotated_among (tag s) fields) r ->
              exported_result (annotated_in (tag s) (TStruct fields)) r) as Hamong.
    { intros [a|e|]; cbn [exported_result]; [| |done].
      - intros Hall g Hg. by apply Hall, annotated_in_among.
      - intros (g & Hg & Hrest). exists g. split; [by apply annotated_in_among | done]. }
    apply Hamong. clear Hamong. cbn [schema].
    match goal with
    | |- exported_result _ (?L fields 0 ∅ h) =>
        enough (forall fs,
                  Forall (fun ft : StructField * ty =>
                            holds ft.2
                            /\ holds (match ft.2 with TPtr elem => elem | _ => ft.2 end)) fs ->
                  forall i m0 h0,
                    exported_result (annotated_among (tag s) fs) (L fs i m0 h0))
          as Hloop
    end.
    { apply Hloop, IH. }
    clear. intros fs Hfs.
    induction Hfs as [|[f fty] fs [_ Hfty] _ IHfs]; intros i m0 h0.
    { intros g (f & fty & name & Hin & _). by apply elem_of_nil in Hin. }
    cbn -[schema Slices.append String.append].
    destruct (Lookup (Tag f) (tag s)) as [name|] eqn:Htag.
    2:{ specialize (IHfs (S i) m0 h0).
        destruct (_ fs (S i) m0 h0) as [a|e|]; cbn [exported_result] in *; [| |done].
        - intros g Hg. apply annotated_among_cons in Hg as [[[? Hsome] _]|Hg];
            [congruence | by apply IHfs].
        - destruct IHfs as (g & Hg & Hrest). exists g.
          split; [by apply annotated_among_tail | done]. }
    destruct (String.eqb (PkgPath f) EmptyString) eqn:Hpkg; cbn [negb].
    2:{ exists f. split; [|split; [by apply String.eqb_neq | done]].
        exists f, fty, name. split; [apply list_elem_of_here|]. split; [done | by left]. }
    apply String.eqb_eq in Hpkg. cbn [snd] in Hfty.
    destruct (Slices.append h0 index i) as [h1 index1].
    destruct (match fty with TPtr elem => elem | _ => fty end) as
      [| | | | | | | | | |k0|elem0|elem0|fields0] eqn:Hty0.
    14:{ specialize (Hfty fields0 eq_refl
                       (String.append keyPrefix (String.append "/" name)) index1 h1).
         destruct (schema s (TStruct fields0) _ index1 h1) as [[h2 nested]|e|];
           cbn [exported_result] in *; [| |done].
         - specialize (IHfs (S i) (nested ∪ m0) h2).
           destruct (_ fs (S i) (nested ∪ m0) h2) as [a|e|];
             cbn [exported_result] in *; [| |done].
           + intros g Hg.
             apply annotated_among_cons in Hg as [[_ [->|(fields' & Hty' & Hg)]]|Hg];
               [done | | by apply IHfs].
             rewrite Hty0 in Hty'. injection Hty' as <-. by apply Hfty.
           + destruct IHfs as (g & Hg & Hrest). exists g.
             split; [by apply annotated_among_tail | done].
         - destruct Hfty as (g & Hg & Hrest). exists g. split; [|done].
           exists f, fty, name. split; [apply list_elem_of_here|]. split; [done|].
           right. by exists fields0. }
    all: match goal with
         | |- exported_result _ (?loop ?fs0 ?i1 ?m1 ?h2) =>
             specialize (IHfs i1 m1 h2);
             destruct (loop fs0 i1 m1 h2) as [a|e|]
         end;
      cbn [exported_result] in *; [| |done];
      [ intros g Hg;
        apply annotated_among_cons in Hg as [[_ [->|(fields' & Hstruct & _)]]|Hg];
        [done | rewrite Hty0 in Hstruct; discriminate Hstruct | by apply IHfs]
      | destruct IHfs as (g & Hg & Hrest); exists g;
        split; [by apply annotated_among_tail | done] ].
Qed.

(** Whenever [schema] returns a map for a struct type, every annotated
    field it can meet in the type, at any depth, is exported; whenever it
    returns an error, the error is that a field must be exported, by the
    name of an annotated field it can meet that is not exported; and it does
    not panic. *)
Theorem schema_result_exported (fields : list (StructField * ty)) :
  (forall m, schema_paths s (TStruct fields) = Ok m ->
             forall g, annotated_in (tag s) (TStruct fields) g ->
                       PkgPath g = EmptyString)
  /\ (forall e, schema_paths s (TStruct fields) = Fail e ->
                exists g, annotated_in (tag s) (TStruct fields) g
                          /\ PkgPath g <> EmptyString
                          /\ e = ErrMustBeExported (Name g))
  /\ schema_paths s (TStruct fields) <> Panic.
Proof.
  pose proof (proj1 (schema_exported_deref (TStruct fields)) fields eq_refl
                (prefix s) Slices.nil_slice []) as Hres.
  unfold schema_paths.
  destruct (schema s (TStruct fields) (prefix s) Slices.nil_slice []) as [[h m]|e|];
    cbn [exported_result] in Hres; [| |done].
  - split; [intros ? _; exact Hres|]. split; [intros ? ?; discriminate | discriminate].
  - split; [intros ? ?; discriminate|]. split; [|discriminate].
    intros e' [= <-]. exact Hres.
Qed.

End SchemaExported.

Section KeysUnderPrefix.

Lemma prefix_append (y x z : string) :
  String.prefix y x = true -> String.prefix y (String.append x z) = true.
Proof.
  revert x. induction y as [|a y IH]; intros x Hyx; [by destruct (String.append x z)|].
  destruct x as [|b x]; [discriminate|].
  change (String.append (String b x) z) with (String b (String.append x z)).
  cbn [String.prefix] in *.
  destruct (ascii_dec a b); [by apply IH | discriminate].
Qed.

Lemma prefix_refl (y : string) : String.prefix y y = true.
Proof.
  induction y as [|a y IH]; [reflexivity|]. cbn [String.prefix].
  by destruct (ascii_dec a a).
Qed.

Lemma join_path_prefix (annotations : list string) :
  forall y x : string,
    String.prefix y x = true -> String.prefix y (join_path x annotations) = true.
Proof.
  induction annotations as [|a annotations IH]; intros y x Hyx; [done|].
  apply IH. by apply prefix_append.
Qed.

Lemma prefix_trans (x : string) :
  forall y z : string,
    String.prefix x y = true -> String.prefix y z = true -> String.prefix x z = true.
Proof.
  induction x as [|a x IH]; intros y z Hxy Hyz; [by destruct z|].
  destruct y as [|b y]; [discriminate|]. destruct z as [|c z]; [discriminate|].
  cbn [String.prefix] in *.
  destruct (ascii_dec a b) as [->|]; [|discriminate].
  destruct (ascii_dec b c) as [->|]; [|discriminate].
  by apply (IH y z).
Qed.

Lemma prefix_append_both (x y z : string) :
  String.prefix (String.append x y) (String.append x (String.append y z)) = true.
Proof.
  induction x as [|a x IH].
  - change (String.prefix y (String.append y z) = true).
    apply prefix_append, prefix_refl.
  - change (String.prefix (String a (String.append x y))
              (String a (String.append x (String.append y z))) = true).
    cbn [String.prefix]. by destruct (ascii_dec a a).
Qed.

Lemma join_path_cons_prefix (x a : string) (annotations : list string) :
  String.prefix (String.append x "/") (join_path x (a :: annotations)) = true.
Proof.
  change (join_path x (a :: annotations))
    with (join_path (String.append x (String.append "/" a)) annotations).
  apply join_path_prefix, prefix_append_both.
Qed.

(** Every key path of the schema lies under the prefix of the store: it
    starts with the prefix and a slash.  When the prefix is empty or was set
    by [WithPrefix], every key path starts with a slash. *)
Theorem schema_keys_under_prefix (s : ParamStore) (T : ty)
  (m : gmap string (list nat)) (k : string) :
  schema_paths s T = Ok m ->
  is_Some (m !! k) ->
  strings.HasPrefix k (String.append (prefix s) "/") = true
  /\ ((prefix s = EmptyString \/ exists p s0, s = WithPrefix p s0) ->
      strings.HasPrefix k "/" = true).
Proof.
  intros Hschema Hk.
  assert (strings.HasPrefix k (String.append (prefix s) "/") = true) as Hunder.
  { destruct T; try (unfold schema_paths in Hschema; discriminate).
    { unfold schema_paths in Hschema. injection Hschema as <-.
      rewrite fmap_empty, lookup_empty in Hk. by destruct Hk. }
    destruct (annotated_exported (tag s) (TStruct fields)) eqn:Hexp.
    2:{ destruct (proj1 (schema_unexported_deref s (TStruct fields)) fields eq_refl
                    (prefix s) Slices.nil_slice [] Hexp) as [name Hfail].
        unfold schema_paths in Hschema. rewrite Hfail in Hschema. discriminate. }
    destruct (proj1 (schema_keys_resolved s (TStruct fields)) fields eq_refl []
                (prefix s) Slices.nil_slice [] Hexp) as (h' & m' & Hm' & Hkeys).
    change (join_path (prefix s) []) with (prefix s) in Hm'.
    unfold schema_paths in Hschema. rewrite Hm' in Hschema. injection Hschema as <-.
    rewrite lookup_fmap, fmap_is_Some in Hk. apply Hkeys in Hk.
    apply list_elem_of_fmap in Hk as [[ancestors leaf] [-> _]].
    unfold key_path, strings.HasPrefix. cbn [fst snd].
    destruct ancestors as [|a ancestors]; apply join_path_cons_prefix. }
  split; [done|]. intros Hprefix.
  assert (prefix s = EmptyString \/ strings.HasPrefix (prefix s) "/" = true) as [Hp|Hp].
  { destruct Hprefix as [?|(p & s0 & ->)]; [by left|].
    unfold WithPrefix; cbn [prefix].
    destruct (string_snoc_view
                (if negb (strings.HasPrefix p "/") then String.append "/" p else p))
      as [Hempty | (u & c & Hsnoc)].
    - rewrite Hempty. by left.
    - rewrite Hsnoc, TrimSuffix_snoc.
      assert (strings.HasPrefix (String.append u (String c EmptyString)) "/" = true) as Hs.
      { rewrite <- Hsnoc. destruct (strings.HasPrefix p "/") eqn:Hpp; [exact Hpp|].
        cbn [negb]. by rewrite HasPrefix_slash. }
      destruct (Ascii.eqb c "/") eqn:Hc; [|by right].
      destruct u as [|a u]; [by left | right].
      rewrite HasPrefix_slash in *. exact Hs. }
  - rewrite Hp in Hunder. exact Hunder.
  - unfold strings.HasPrefix in *.
    apply (prefix_trans _ (String.append (prefix s) "/")); [|done].
    by apply prefix_append.
Qed.

End KeysUnderPrefix.

(** ** More on the options and the request *)

Section PrefixVariants.

Lemma HasSuffix_slash_snoc (p : string) :
  p <> EmptyString -> strings.HasSuffix p "/" = false ->
  exists u c, p = String.append u (String c EmptyString) /\ Ascii.eqb c "/" = false.
Proof.
  intros Hne Hsuf. destruct (string_snoc_view p) as [->|(u & c & ->)]; [done|].
  rewrite HasSuffix_snoc_1 in Hsuf. by exists u, c.
Qed.

(** A slash before the prefix, one after it, or both, change nothing: for a
    string that is not empty and neither starts nor ends with a slash,
    [WithPrefix] stores the string after one slash, and the options for the
    four ways of writing it are the same option. *)
Theorem WithPrefix_slashes (p : string) (s : ParamStore) :
  p <> EmptyString ->
  strings.HasPrefix p "/" = false ->
  strings.HasSuffix p "/" = false ->
  prefix (WithPrefix p s) = String.append "/" p
  /\ WithPrefix (String.append "/" p) s = WithPrefix p s
  /\ WithPrefix (String.append p "/") s = WithPrefix p s
  /\ WithPrefix (String.append "/" (String.append p "/")) s = WithPrefix p s.
Proof.
  intros Hne Hpre Hsuf.
  destruct (HasSuffix_slash_snoc p Hne Hsuf) as (u & c & -> & Hc).
  assert (strings.TrimSuffix (String.append "/" (String.append u (String c EmptyString))) "/"
          = String.append "/" (String.append u (String c EmptyString))) as Hkeep.
  { change (String.append "/" (String.append u (String c EmptyString)))
      with (String.append (String "/" u) (String c EmptyString)).
    by rewrite TrimSuffix_snoc, Hc. }
  assert (strings.TrimSuffix
            (String.append "/" (String.append (String.append u (String c EmptyString)) "/")) "/"
          = String.append "/" (String.append u (String c EmptyString))) as Htrim.
  { change (String.append "/" (String.append (String.append u (String c EmptyString)) "/"))
      with (String.append (String "/" (String.append u (String c EmptyString)))
              (String "/" EmptyString)).
    by rewrite TrimSuffix_snoc. }
  assert (strings.HasPrefix (String.append (String.append u (String c EmptyString)) "/") "/"
          = false) as Hpre'.
  { rewrite HasPrefix_slash in *. by destruct u. }
  unfold WithPrefix. cbn [prefix].
  rewrite Hpre, Hpre'. cbn [negb].
  assert (forall x, strings.HasPrefix (String.append "/" x) "/" = true) as Hslash
    by (intros x; by rewrite HasPrefix_slash).
  rewrite !Hslash. cbn [negb]. by rewrite Hkeep, Htrim.
Qed.

End PrefixVariants.

Section OneFetch.
Context `{GoEnv}.

Lemma set_parts_ext (set set' : ssm.Parameter_ -> error + val) (parts : list string) :
  (forall sp, set sp = set' sp) ->
  forall i, set_parts set parts i = set_parts set' parts i.
Proof.
  intros Hext. induction parts as [|part parts IH]; intros i; simpl; [reflexivity|].
  by rewrite Hext, IH.
Qed.

(** [setValue] reads nothing of the store but its converters. *)
Lemma setValue_converters (s s' : ParamStore) (t : ty) :
  converters s = converters s' ->
  forall p, setValue s p t = setValue s' p t.
Proof.
  intros Hconvs.
  induction t as [| | | | | | | | | |k|elem IH|elem IH|fields _] using ty_fields_ind;
    intros p; rewrite !setValue_unfold, Hconvs; try reflexivity.
  destruct (ssm.Type_ p); try reflexivity.
  by rewrite (set_parts_ext _ (fun sp => setValue s' sp elem) _ IH).
Qed.

Lemma entries_loop_converters (s s' : ParamStore) (T : ty)
  (params : list ssm.Parameter_) :
  converters s = converters s' ->
  forall v m, entries_loop s T params v m = entries_loop s' T params v m.
Proof.
  intros Hconvs. induction params as [|p params IH]; intros v m; [reflexivity|].
  cbn [entries_loop]. destruct (walk _ T v) as [ft fv put|]; [|reflexivity].
  rewrite (setValue_converters s s' ft Hconvs p).
  destruct (setValue s' p ft); [reflexivity|]. by rewrite IH.
Qed.

(** [schema] reads nothing of the store but its tag. *)
Lemma schema_tag (s s' : ParamStore) (T : ty) :
  tag s = tag s' ->
  let same T :=
    forall keyPrefix index h, schema s T keyPrefix index h = schema s' T keyPrefix index h in
  same T /\ same (match T with TPtr elem => elem | _ => T end).
Proof.
  destruct s as [p1 t1 c1 l1], s' as [p2 t2 c2 l2]. intros Htag same.
  cbn [tag] in Htag. subst t2.
  induction T as [| | | | | | | | | |k|elem IH|elem IH|fields IH] using ty_fields_ind;
    try (split; intros ? ? ?; reflexivity).
  - split; [intros ? ? ?; reflexivity | exact (proj1 IH)].
  - assert (same (TStruct fields)) as Hstruct; [|by split].
    intros keyPrefix index h. cbn [schema].
    match goal with
    | |- ?L fields 0 ∅ h = ?L' fields 0 ∅ h =>
        enough (forall fs,
                  Forall (fun ft : StructField * ty =>
                            same ft.2
                            /\ same (match ft.2 with TPtr elem => elem | _ => ft.2 end)) fs ->
                  forall i m0 h0, L fs i m0 h0 = L' fs i m0 h0) as Hloop
    end.
    { apply Hloop, IH. }
    clear. intros fs Hfs.
    induction Hfs as [|[f fty] fs [_ Hfty] _ IHfs]; intros i m0 h0; [reflexivity|].
    cbn -[schema Slices.append String.append] in *.
    destruct (Lookup (Tag f) t1) as [name|]; [|apply IHfs].
    destruct (negb _); [reflexivity|]. cbn [snd] in Hfty.
    destruct (match fty with TPtr elem => elem | _ => fty end) eqn:Hty0;
      destruct (Slices.append h0 index i) as [h1 index1]; try apply IHfs.
    rewrite Hfty.
    match goal with
    | |- context [schema ?s2 ?t ?kp index1 h1] =>
        destruct (schema s2 t kp index1 h1) as [[h2 nested]| |]
    end; [apply IHfs | reflexivity..].
Qed.

Lemma schema_paths_tag (s s' : ParamStore) (T : ty) :
  tag s = tag s' -> prefix s = prefix s' -> schema_paths s T = schema_paths s' T.
Proof.
  intros Htag Hprefix. unfold schema_paths.
  by rewrite (proj1 (schema_tag s s' T Htag)), Hprefix.
Qed.

(** The request of [Read] names the key paths of the schema, each once,
    and asks for decryption, and the outcome of [Read] depends on the client
    through its answer to that request and nothing else: clients that
    answer it alike give the same outcome, and [Read] returns the error of
    the client, with the target untouched, exactly when the client answers
    that request with an error. *)
Theorem Read_request_decides (s : ParamStore) (T : ty) (v : val)
  (schema0 : gmap string (list nat)) (client1 client2 : Client) :
  schema_paths s T = Ok schema0 ->
  let input := {| ssm.Names := map_range 0 schema0; ssm.WithDecryption := true |} in
  let with_client client :=
    {| prefix := prefix s; tag := tag s; converters := converters s;
       cli := Some client |} in
  client1 input = client2 input ->
  NoDup (ssm.Names input)
  /\ (forall k, k ∈ ssm.Names input <-> is_Some (schema0 !! k))
  /\ Read (with_client client1) (TPtr T) (VPtr (Some v))
     = Read (with_client client2) (TPtr T) (VPtr (Some v))
  /\ (forall cause,
        client1 input = inl cause
        <-> Read (with_client client1) (TPtr T) (VPtr (Some v))
            = Returns (VPtr (Some v)) (Some (ErrReadSSM cause))).
Proof.
  intros Hschema input with_client Hsame.
  destruct (map_range_keys 0 schema0) as [Hnodup Hkeys].
  split; [done|]. split; [done|].
  assert (forall client, schema_paths (with_client client) T = Ok schema0) as Hschema'
    by (intros client; by rewrite <- (schema_paths_tag s (with_client client) T)).
  subst with_client input. cbv beta in *.
  unfold Read. rewrite (schema_paths_Struct _ _ _ Hschema).
  rewrite !Hschema'. cbn [cli]. rewrite <- Hsame.
  destruct (client1 _) as [err|params].
  - split; [reflexivity|]. intros cause. split; [by intros [= ->] | by intros [= ->]].
  - split; [by erewrite entries_loop_converters|].
    intros cause. split; [discriminate|]. cbv zeta.
    match goal with
    | |- context [ended ?st] => destruct (ended st) as [|e|] eqn:Hend
    end; [| |discriminate].
    + destruct (0 <? size _)%nat; discriminate.
    + apply entries_loop_error in Hend as (p & cause' & _ & ->). discriminate.
Qed.

End OneFetch.

(** ** [schema] on types nested at most two deep *)

Section Shallow.

(** A slice whose array is in the store keeps its elements when the store
    grows. *)
Lemma elems_stable (h h' : Slices.store) (sl : Slices.slice) :
  h `prefix_of` h' -> Slices.arr sl < length h ->
  Slices.elems h' sl = Slices.elems h sl.
Proof.
  intros [k ->] Hvalid. unfold Slices.elems, Slices.store in *.
  by rewrite lookup_app_l.
Qed.

Lemma take_snoc (l k : list nat) (i : nat) :
  take (S (length l)) (l ++ i :: k) = l ++ [i].
Proof. induction l as [|a l IH]; simpl; [reflexivity | by rewrite IH]. Qed.

(** [append] to a slice that is full: a new array, after the ones of the
    store, with the elements and the new one. *)
Lemma append_full (h : Slices.store) (index : Slices.slice) (l : list nat) (i : nat) :
  Slices.len index = length l ->
  Slices.cap index = length l ->
  Slices.elems h index = l ->
  exists new,
    Slices.append h index i
    = (h ++ [new],
       Slices.Slice (length h) (S (length l))
         (Slices.growslice_cap (length l) (S (length l))))
    /\ Slices.elems (h ++ [new])
         (Slices.Slice (length h) (S (length l))
            (Slices.growslice_cap (length l) (S (length l))))
       = l ++ [i].
Proof.
  intros Hlen Hcap Helems. unfold Slices.append.
  rewrite Hlen, Hcap, Nat.ltb_irrefl.
  fold (Slices.elems h index) . unfold Slices.elems in Helems. rewrite Hlen in Helems.
  rewrite Helems. eexists. split; [reflexivity|].
  unfold Slices.elems, Slices.store in *. cbn [Slices.arr Slices.len].
  rewrite list_lookup_middle by done. cbn [default].
  apply take_snoc.
Qed.

Variable s : ParamStore.

Lemma in_store_grows (h h' : Slices.store) (m : gmap string Slices.slice) :
  h `prefix_of` h' -> in_store h m -> in_store h' m.
Proof.
  intros Hpre Hm k sl Hk. apply prefix_length in Hpre. specialize (Hm k sl Hk).
  simpl in Hm. lia.
Qed.

Lemma elems_fmap_stable (h h' : Slices.store) (m : gmap string Slices.slice) :
  h `prefix_of` h' -> in_store h m ->
  Slices.elems h' <$> m = Slices.elems h <$> m.
Proof.
  intros Hpre Hm. apply map_eq. intros k. rewrite !lookup_fmap.
  destruct (m !! k) as [sl|] eqn:Hk; [|reflexivity]. simpl. f_equal.
  apply elems_stable; [done|]. by apply (Hm k sl).
Qed.

Lemma schema_refines_value (T : ty) :
  refines_value s T /\ refines_value s (match T with TPtr elem => elem | _ => T end).
Proof.
  induction T as [| | | | | | | | | |k|elem IH|elem IH|fields IH] using ty_fields_ind;
    try (split; intros ? ?; discriminate).
  - split; [intros ? ?; discriminate | exact (proj1 IH)].
  - assert (refines_value s (TStruct fields)) as Hstruct; [|by split].
    intros ? [= <-] keyPrefix index l h Hlen Hcap Helems.
    cbn [schema schema_value nesting].
    match goal with
    | |- _ + ?N fields <= 2 -> agrees h (?L fields 0 ∅ h) (?L' fields 0 ∅) =>
        enough (forall fs,
                  Forall (fun ft : StructField * ty =>
                            refines_value s ft.2
                            /\ refines_value s
                                 (match ft.2 with TPtr elem => elem | _ => ft.2 end)) fs ->
                  forall i m0 h0,
                    length l + N fs <= 2 ->
                    in_store h0 m0 ->
                    (length l = 0 \/ Slices.arr index < length h0) ->
                    Slices.elems h0 index = l ->
                    agrees h0 (L fs i m0 h0) (L' fs i (Slices.elems h0 <$> m0)))
          as Hloop
    end.
    { intros Hdepth.
      assert (length l = 0 \/ Slices.arr index < length h) as Hvalid.
      { destruct l as [|a l]; [by left | right].
        unfold Slices.elems in Helems. rewrite Hlen in Helems.
        destruct (h !! Slices.arr index) eqn:Harr; [by eapply lookup_lt_Some|].
        discriminate Helems. }
      specialize (Hloop fields IH 0 ∅ h Hdepth (map_Forall_empty _) Hvalid Helems).
      by rewrite fmap_empty in Hloop. }
    clear -Hlen Hcap. intros fs Hfs.
    induction Hfs as [|[f fty] fs [_ Hfty] _ IHfs];
      intros i m0 h0 Hdepth Hm0 Hvalid Helems.
    { by repeat split. }
    cbn -[schema schema_value nesting Slices.append String.append Nat.max] in *.
    assert (forall (h1 : Slices.store) (sl : Slices.slice),
              h0 `prefix_of` h1 -> Slices.elems h1 index = l) as Hindex.
    { intros h1 sl Hpre. destruct Hvalid as [Hnil|Hvalid].
      - unfold Slices.elems. rewrite Hlen, Hnil. simpl.
        destruct l; [done | discriminate].
      - rewrite (elems_stable h0 h1 index Hpre Hvalid). exact Helems. }
    destruct (Lookup (Tag f) (tag s)) as [name|].
    2:{ apply IHfs; try done; lia. }
    destruct (negb _); [reflexivity|]. cbn [snd] in Hfty.
    destruct (append_full h0 index l i Hlen Hcap Helems) as (new & Happend & Hnew).
    rewrite Happend.
    set (index1 := Slices.Slice (length h0) (S (length l))
                     (Slices.growslice_cap (length l) (S (length l)))) in *.
    assert (h0 `prefix_of` h0 ++ [new]) as Hgrow by (by apply prefix_app_r).
    assert (Slices.arr index1 < length (h0 ++ [new])) as Hvalid1
      by (rewrite length_app; simpl; lia).
    destruct (match fty with TPtr elem => elem | _ => fty end) as
      [| | | | | | | | | |k0|elem0|elem0|fields0] eqn:Hty0;
      cbn beta iota in Hdepth.
    14:{ assert (length l <= 1) as Hshallow by lia.
         assert (Slices.cap index1 = length (l ++ [i])) as Hcap1.
         { rewrite length_app. simpl.
           destruct l as [|a [|b l]]; simpl in *; [reflexivity..|lia]. }
         assert (Slices.len index1 = length (l ++ [i])) as Hlen1
           by (rewrite length_app; simpl; lia).
         assert (length (l ++ [i]) + nesting (tag s) (TStruct fields0) <= 2) as Hdepth1
           by (rewrite length_app; cbn [length]; lia).
         pose proof (Hfty fields0 eq_refl
                       (String.append keyPrefix (String.append "/" name))
                       index1 (l ++ [i]) (h0 ++ [new]) Hlen1 Hcap1 Hnew Hdepth1) as Hsub.
         destruct (schema s (TStruct fields0) _ index1 (h0 ++ [new]))
           as [[h2 nested]|e|]; [|by rewrite Hsub..].
         destruct Hsub as (-> & Hpre2 & Hnested).
         assert (h0 `prefix_of` h2) as Hpre02 by (by etrans).
         assert (in_store h2 (nested ∪ m0)) as Hm2.
         { apply map_Forall_union_2; [done|]. by apply (in_store_grows h0). }
         assert (length l = 0 \/ Slices.arr index < length h2) as Hvalid2.
         { destruct Hvalid as [?|Hv]; [by left | right].
           apply prefix_length in Hpre02. lia. }
         specialize (IHfs (S i) (nested ∪ m0) h2 ltac:(lia) Hm2 Hvalid2
                       (Hindex h2 index Hpre02)).
         rewrite map_fmap_union, (elems_fmap_stable h0 h2 m0 Hpre02 Hm0) in IHfs.
         destruct (_ fs (S i) (nested ∪ m0) h2) as [[h' m]|e|]; [|done..].
         destruct IHfs as (-> & Hpre' & Hm'). split; [done|]. split; [by etrans | done]. }
    all: assert (in_store (h0 ++ [new])
                   (<[String.append keyPrefix (String.append "/" name) := index1]> m0))
           as Hm1
           by (apply map_Forall_insert_2; [done | by apply (in_store_grows h0)]);
      assert (length l = 0 \/ Slices.arr index < length (h0 ++ [new])) as Hvalid2
        by (destruct Hvalid as [?|Hv]; [by left | right; rewrite length_app; lia]);
      specialize (IHfs (S i) _ (h0 ++ [new]) ltac:(lia) Hm1 Hvalid2
                    (Hindex (h0 ++ [new]) index Hgrow));
      rewrite fmap_insert, Hnew, (elems_fmap_stable h0 (h0 ++ [new]) m0 Hgrow Hm0) in IHfs;
      destruct (_ fs (S i) _ (h0 ++ [new])) as [[h' m]|e|]; [|done..];
      destruct IHfs as (-> & Hpre' & Hm'); (split; [done|]);
      (split; [by etrans | done]).
Qed.

(** On a type in which annotated structs are nested at most two deep,
    [schema] gives each key path the access path of its field: the indexes
    of the structs around it, outermost first, then its own.  (One struct
    deeper, siblings share the array of their access paths.) *)
Theorem schema_shallow_exact (T : ty) :
  nesting (tag s) T <= 2 ->
  schema_paths s T = schema_value s T (prefix s) [].
Proof.
  intros Hdepth. unfold schema_paths.
  destruct T; try reflexivity.
  pose proof (proj1 (schema_refines_value (TStruct fields)) fields eq_refl
                (prefix s) Slices.nil_slice [] [] eq_refl eq_refl eq_refl Hdepth) as Href.
  destruct (schema s (TStruct fields) (prefix s) Slices.nil_slice []) as [[h' m]|e|];
    [|done..].
  by destruct Href as (-> & _ & _).
Qed.

End Shallow.
(** ** [NewParamStore] with a client *)

Section NewParamStoreClient.
Context `{GoEnv}.

(** When an option sets the client and the options after it leave the
    client alone, [NewParamStore] returns a store with that client and no
    error, whatever the options before it do and whether or not the default
    configuration can be loaded. *)
Theorem NewParamStore_with_client (pre post : list Option) (client : Client) :
  Forall keeps_client post ->
  exists s,
    NewParamStore (pre ++ WithClient client :: post) = inr s
    /\ cli s = Some client.
Proof.
  intros Hpost. unfold NewParamStore. cbv zeta.
  rewrite foldl_app. cbn [foldl].
  match goal with
  | |- context [foldl ?f (WithClient client ?s1) post] =>
      pose proof (foldl_keeps_client post (WithClient client s1) Hpost) as Hcli;
      cbn [WithClient cli] in Hcli;
      exists (foldl f (WithClient client s1) post)
  end.
  by rewrite Hcli.
Qed.

End NewParamStoreClient.
(** ** Instances *)

(** An instance, at [NewParamStore(WithPrefix("dev"), WithClient(client),
    WithParseNumber())]. *)
Lemma NewParamStore_with_client_witness :
  exists s,
    @NewParamStore Sample.env
      ([WithPrefix "dev"] ++ WithClient (Sample.fixedClient []) :: [WithParseNumber])
    = inr s
    /\ cli s = Some (Sample.fixedClient []).
Proof.
  apply (@NewParamStore_with_client Sample.env [WithPrefix "dev"] [WithParseNumber]
           (Sample.fixedClient [])).
  repeat constructor.
Defined.

(** An instance, at the configuration of the test [Nested]. *)
Lemma schema_key_paths_witness :
  let s := Sample.store (Sample.fixedClient []) in
  let fields :=
    [(Sample.field "Root" "root", TString);
     (Sample.field "Database" "db",
      TStruct [(Sample.field "User" "user", TString);
               (Sample.field "Pass" "password", TString)]);
     (Sample.field "External" "ext", TPtr (TStruct [(Sample.field "A" "a", TString)]))] in
  let m : gmap string (list nat) :=
    <["/root" := [0]]> (<["/db/user" := [1; 0]]> (<["/db/password" := [1; 1]]>
      (<["/ext/a" := [2; 0]]> ∅))) in
  (forall k, is_Some (m !! k)
             <-> k ∈ key_path (prefix s) <$> annotated_leaves (tag s) (TStruct fields) [])
  /\ (NoDup (key_path (prefix s) <$> annotated_leaves (tag s) (TStruct fields) []) ->
      size m = length (annotated_leaves (tag s) (TStruct fields) [])).
Proof.
  intros s fields m. apply (schema_key_paths s fields m). vm_compute. reflexivity.
Defined.

(** An instance, at [struct { Foo string `ssm:"foo"`; secret string `ssm:"s"` }]
    with [secret] not exported, for the error. *)
Lemma schema_result_exported_witness :
  let s := Sample.store (Sample.fixedClient []) in
  let secret := {| Name := "secret"; PkgPath := "main"; Tag := [("ssm", "s")] |} in
  let fields := [(Sample.field "Foo" "foo", TString); (secret, TString)] in
  exists g, annotated_in (tag s) (TStruct fields) g
            /\ PkgPath g <> EmptyString
            /\ ErrMustBeExported "secret" = ErrMustBeExported (Name g).
Proof.
  intros s secret fields.
  apply (proj1 (proj2 (schema_result_exported s fields))).
  reflexivity.
Defined.

(** An instance, at a field of type [int] and a store with the duration
    parser alone. *)
Lemma setValue_unsupported_witness :
  let s := WithParseDuration (Sample.store (Sample.fixedClient [])) in
  @setValue Sample.env s (Sample.stringParam "/n" "1") TInt
  = inl (ErrUnsupported (Kind_of TInt)).
Proof.
  intros s.
  apply (@setValue_unsupported Sample.env s (Sample.stringParam "/n" "1") TInt).
  - repeat constructor.
  - discriminate.
  - discriminate.
Defined.

(** An instance, at a field of type [int8], the entry [42] and a store with
    the duration parser, the number parser and a time parser, in that
    order. *)
Lemma setValue_first_converter_witness :
  let s := WithParseTime "2006"
             (WithParseNumber (WithParseDuration (Sample.store (Sample.fixedClient [])))) in
  let p := Sample.stringParam "/n" "42" in
  @convert Sample.env ParseNumber p TInt8 = ConvSet (VInt 42)
  /\ @setValue Sample.env s p TInt8
     = match @convert Sample.env ParseNumber p TInt8 with
       | ConvErr err => inl err
       | ConvSet v => inr v
       | ConvPass => inl (ErrUnsupported (Kind_of TInt8))
       end
  /\ @convert Sample.env ParseNumber p TInt8 <> ConvPass.
Proof.
  intros s p. split; [reflexivity|].
  apply (@setValue_first_converter Sample.env s [ParseDuration] [ParseTime "2006"]
           ParseNumber p TInt8).
  - reflexivity.
  - repeat constructor.
  - reflexivity.
Defined.

(** An instance, at a field of type [int], a store with the number parser
    and the entry [7] once as a [String] and once as a [StringList]. *)
Lemma setValue_kind_irrelevant_witness :
  let s := WithParseNumber (Sample.store (Sample.fixedClient [])) in
  @setValue Sample.env s (Sample.stringParam "/n" "7") TInt
  = @setValue Sample.env s (Sample.stringListParam "/n" "7") TInt.
Proof.
  intros s.
  apply (@setValue_kind_irrelevant Sample.env s (Sample.stringParam "/n" "7")
           (Sample.stringListParam "/n" "7") TInt).
  - reflexivity.
  - discriminate.
  - discriminate.
Defined.

(** An instance, at a field of type [int8] and the entry [300]: the field
    holds 44. *)
Lemma setValue_ParseNumber_int_witness :
  let s := WithParseNumber (WithParseDuration (Sample.store (Sample.fixedClient []))) in
  let p := Sample.stringParam "/n" "300" in
  @setValue Sample.env s p TInt8 = inr (VInt 44)
  /\ let bits := int_bits (Kind_of TInt8) in
     match strconv.ParseInt (ssm.Value p) with
     | inr n =>
         exists stored : Z,
           @setValue Sample.env s p TInt8 = inr (VInt stored)
           /\ (- 2 ^ (bits - 1) <= stored < 2 ^ (bits - 1))%Z
           /\ ((stored - n) mod 2 ^ bits = 0)%Z
           /\ ((- 2 ^ (bits - 1) <= n < 2 ^ (bits - 1))%Z -> stored = n)
           /\ (bits = 64%Z -> stored = n)
     | inl nerr =>
         @setValue Sample.env s p TInt8 = inl (ErrParseInt (ssm.Value p) (Err nerr))
     end.
Proof.
  intros s p. split; [reflexivity|].
  apply (@setValue_ParseNumber_int Sample.env s [ParseDuration] [] p TInt8).
  - reflexivity.
  - repeat constructor.
  - reflexivity.
Defined.

(** An instance, at [struct { Foo; Bar }] and a client that fails. *)
Lemma Read_error_untouched_witness :
  let s := Sample.store (fun _ => inl "timeout") in
  let v := VPtr (Some (zero Sample.FooBar)) in
  let e := ErrReadSSM "timeout" in
  v = v
  /\ (e = ErrNotPointer \/ e = ErrNilPointer \/ e = ErrNotStruct
      \/ (exists name, e = ErrMustBeExported name)
      \/ (exists cause, e = ErrReadSSM cause)).
Proof.
  intros s v e.
  apply (@Read_error_untouched Sample.env s (TPtr Sample.FooBar) v v e).
  - reflexivity.
  - discriminate.
  - discriminate.
Defined.

(** An instance, at [struct { Foo; Bar }] when the client returns [/foo]
    and [/bar]. *)
Lemma Read_nil_iff_witness :
  let params := [Sample.stringParam "/foo" "abc"; Sample.stringParam "/bar" "def"] in
  let s := Sample.store (Sample.fixedClient params) in
  let T := Sample.FooBar in
  let v := zero Sample.FooBar in
  let schema0 : gmap string (list nat) := <["/foo" := [0]]> (<["/bar" := [1]]> ∅) in
  let st := @entries_loop Sample.env s T params v schema0 in
  ((exists v', @Read Sample.env s (TPtr T) (VPtr (Some v)) = Returns v' None)
   <-> ended st = LoopDone
       /\ forall k, is_Some (schema0 !! k) -> k ∈ ssm.Name <$> params)
  /\ forall v', @Read Sample.env s (TPtr T) (VPtr (Some v)) = Returns v' None ->
               v' = VPtr (Some (target st)).
Proof.
  intros params s T v schema0.
  apply (@Read_nil_iff Sample.env s T v (Sample.fixedClient params) schema0 params).
  - reflexivity.
  - reflexivity.
  - reflexivity.
Defined.

(** An instance, at [struct { Foo; Bar }] when the client returns [/foo]
    alone. *)
Lemma Read_NotFoundError_sound_witness :
  let params := [Sample.stringParam "/foo" "abc"] in
  let s := Sample.store (Sample.fixedClient params) in
  let T := Sample.FooBar in
  let v := zero Sample.FooBar in
  let v' := VPtr (Some (VStruct [VString "abc"; VString EmptyString])) in
  let names := ["/bar"] in
  let schema0 : gmap string (list nat) := <["/foo" := [0]]> (<["/bar" := [1]]> ∅) in
  let st := @entries_loop Sample.env s T params v schema0 in
  ended st = LoopDone
  /\ v' = VPtr (Some (target st))
  /\ names <> []
  /\ NoDup names
  /\ forall k, k ∈ names <-> is_Some (schema0 !! k) /\ k ∉ ssm.Name <$> params.
Proof.
  intros params s T v v' names schema0.
  apply (@Read_NotFoundError_sound Sample.env s T v v' (Sample.fixedClient params)
           schema0 params names).
  - reflexivity.
  - reflexivity.
  - reflexivity.
  - reflexivity.
Defined.

(** An instance, at [struct { Foo; Ext *struct { A } }] when the client
    returns [/foo] and [/ext/a], for the entry [/ext/a]. *)
Lemma Read_binds_witness :
  let p := Sample.stringParam "/ext/a" "y" in
  let params := [Sample.stringParam "/foo" "abc"; p] in
  let s := Sample.store (Sample.fixedClient params) in
  let T := Sample.FooExt in
  let v := zero Sample.FooExt in
  exists v' err ft x,
    @Read Sample.env s (TPtr T) (VPtr (Some v)) = Returns (VPtr (Some v')) err
    /\ @setValue Sample.env s p ft = inr x
    /\ value_at T v' [1; 0] = Some (ft, x).
Proof.
  intros p params s T v.
  apply (@Read_binds Sample.env s T v (Sample.fixedClient params)
           (<["/foo" := [0]]> (<["/ext/a" := [1; 0]]> ∅)) params p [1; 0]).
  - reflexivity.
  - reflexivity.
  - reflexivity.
  - reflexivity.
  - apply list_elem_of_further, list_elem_of_here.
  - apply (bool_decide_unpack _). vm_compute. reflexivity.
  - reflexivity.
  - intros p' index' Hin Hne Hindex.
    apply elem_of_cons in Hin as [->|Hin].
    + injection Hindex as <-. split; intros [k Hk]; discriminate Hk.
    + apply list_elem_of_singleton in Hin. contradiction.
Defined.

(** An instance, at [struct { Foo; Bar }], the prefix [dev] and the key
    path [/dev/foo]. *)
Lemma schema_keys_under_prefix_witness :
  let s := WithPrefix "dev" (Sample.store (Sample.fixedClient [])) in
  let k := "/dev/foo" in
  strings.HasPrefix k (String.append (prefix s) "/") = true
  /\ ((prefix s = EmptyString \/ exists p s0, s = WithPrefix p s0) ->
      strings.HasPrefix k "/" = true).
Proof.
  intros s k.
  apply (schema_keys_under_prefix s Sample.FooBar
           (<["/dev/foo" := [0]]> (<["/dev/bar" := [1]]> ∅)) k).
  - reflexivity.
  - exists [0]. reflexivity.
Defined.

(** An instance, at the prefix [dev]. *)
Lemma WithPrefix_slashes_witness :
  let s := Sample.store (Sample.fixedClient []) in
  let p := "dev" in
  prefix (WithPrefix p s) = String.append "/" p
  /\ WithPrefix (String.append "/" p) s = WithPrefix p s
  /\ WithPrefix (String.append p "/") s = WithPrefix p s
  /\ WithPrefix (String.append "/" (String.append p "/")) s = WithPrefix p s.
Proof.
  intros s p. apply (WithPrefix_slashes p s).
  - discriminate.
  - reflexivity.
  - reflexivity.
Defined.

(** An instance, at [struct { Foo; Bar }], a client that returns [/foo] and
    [/bar] to every request, and the mock client of the tests, which
    returns the entries it holds for the names of a request: the two
    answer the request of [Read] alike, and [Read] binds both fields with
    either. *)
Lemma Read_request_decides_witness :
  let foo := Sample.stringParam "/foo" "abc" in
  let bar := Sample.stringParam "/bar" "def" in
  let s := Sample.store (Sample.fixedClient []) in
  let T := Sample.FooBar in
  let v := zero Sample.FooBar in
  let schema0 : gmap string (list nat) := <["/foo" := [0]]> (<["/bar" := [1]]> ∅) in
  let client1 := Sample.fixedClient [foo; bar] in
  let client2 := Sample.mockSSM [bar; Sample.stringParam "/other" "x"; foo] in
  let input := {| ssm.Names := @map_range Sample.env 0 schema0;
                  ssm.WithDecryption := true |} in
  let with_client client :=
    {| prefix := prefix s; tag := tag s; converters := converters s;
       cli := Some client |} in
  (client1 input = inr [foo; bar]
   /\ client2 input = inr [foo; bar]
   /\ @Read Sample.env (with_client client2) (TPtr T) (VPtr (Some v))
      = Returns (VPtr (Some (VStruct [VString "abc"; VString "def"]))) None)
  /\ NoDup (ssm.Names input)
  /\ (forall k, k ∈ ssm.Names input <-> is_Some (schema0 !! k))
  /\ @Read Sample.env (with_client client1) (TPtr T) (VPtr (Some v))
     = @Read Sample.env (with_client client2) (TPtr T) (VPtr (Some v))
  /\ (forall cause,
        client1 input = inl cause
        <-> @Read Sample.env (with_client client1) (TPtr T) (VPtr (Some v))
            = Returns (VPtr (Some v)) (Some (ErrReadSSM cause))).
Proof.
  intros foo bar s T v schema0 client1 client2. split.
  { repeat split; vm_compute; reflexivity. }
  apply (@Read_request_decides Sample.env s T v schema0 client1 client2).
  - reflexivity.
  - vm_compute. reflexivity.
Defined.

(** An instance, at the configuration of the test [Nested]. *)
Lemma schema_shallow_exact_witness :
  let s := Sample.store (Sample.fixedClient []) in
  schema_paths s Sample.Nested = schema_value s Sample.Nested (prefix s) [].
Proof.
  intros s. apply (schema_shallow_exact s Sample.Nested).
  vm_compute. repeat constructor.
Defined.
